(** * sqlite-scanner: a shallow embedding of [main.go] and its properties

    The scanner walks file-system roots, probes every regular file for the
    SQLite magic header and renders the matches.  The Go code is embedded
    function by function; the operating system and the Go standard library
    ([os], [io], [errors], [path/filepath], [encoding/json]) are modelled as
    an explicit environment. *)

From Stdlib Require Import ZArith Ascii String DecimalString DecimalPos.
From Stdlib.Strings Require Import Byte.
From stdpp Require Import base decidable list gmap strings.

Set Warnings "-register-all,-clear-no-such-hyp".

(** ** Go errors *)

(** The sentinel errors the scanner tests for, plus opaque OS error codes. *)
Inductive sentinel :=
| ErrPermission
| ErrNotExist
| EOF
| ErrUnexpectedEOF
| Errno (code : nat).

(** An error value: a sentinel, an error wrapping another one with a prefix
    ([fmt.Errorf("%s: %w", ..)], [*fs.PathError]), or the value built by
    [errors.Join]. *)
Inductive error :=
| Sentinel (s : sentinel)
| Wrap (prefix : string) (e : error)
| Joined (es : list error).

#[global] Instance sentinel_eq_dec : EqDecision sentinel.
Proof. solve_decision. Defined.

(** [errors.Is(err, target)] for a sentinel target: the error tree is
    searched depth first through [Unwrap() error] and [Unwrap() []error]. *)
Fixpoint errors_Is (err : error) (target : sentinel) : bool :=
  match err with
  | Sentinel s => bool_decide (s = target)
  | Wrap _ e => errors_Is e target
  | Joined es => existsb (fun e => errors_Is e target) es
  end.

(** [errors.Join(a, b)]: nil values are discarded, nil is returned when
    nothing is left. *)
Definition errors_Join (a b : option error) : option error :=
  match a, b with
  | None, None => None
  | Some x, None => Some (Joined [x])
  | None, Some y => Some (Joined [y])
  | Some x, Some y => Some (Joined [x; y])
  end.

(** The errors at the leaves of the [errors.Join] structure. *)
Fixpoint leaves (e : error) : list error :=
  match e with
  | Joined es => flat_map leaves es
  | _ => [e]
  end.

Definition leaves_opt (e : option error) : list error :=
  match e with Some e => leaves e | None => [] end.

(** ** The file system seen by the scanner *)

(** A file as [os.Open], [io.ReadFull] and [File.Stat] see it: its bytes,
    the error [os.Open] fails with (if any), the offset at which reading
    fails with an I/O error (if any) and the error of [Stat] (if any). *)
Record file := {
  f_data : list byte;
  f_open_err : option error;
  f_read_fault : option (nat * error);
  f_stat_err : option error
}.

(** Kinds of directory entries: [d.Type().IsRegular()] holds of [NReg] only;
    a directory carries the error of [os.ReadDir] (if any) and the entries
    that were read, sorted by name. *)
Inductive node :=
| NReg
| NOther
| NDir (readdir_err : option error) (entries : list (string * node)).

(** The environment: the file system and the lexical path functions. *)
Record OS := {
  os_file : string -> option file;
  os_Lstat : string -> error + node;
  os_Stat : string -> option error;
  filepath_EvalSymlinks : string -> error + string;
  filepath_Join : string -> string -> string;
  filepath_Abs : string -> error + string
}.

(** ** The header prober *)

Record matchResult := { Path : string; Size : Z }.

Definition matchResult_zero : matchResult := {| Path := ""; Size := 0 |}.

(** [var sqliteMagic = []byte("SQLite format 3\x00")] *)
Definition sqliteMagic : list byte :=
  list_byte_of_string "SQLite format 3" ++ [x00].

#[global] Instance byte_eq_dec : EqDecision byte.
Proof. intros a b. destruct (Byte.eqb a b) eqn:E.
  - left. by apply Byte.byte_dec_bl.
  - right. intros ->. by rewrite Byte.byte_dec_lb in E.
Defined.

(** [bytes.Equal] *)
Definition bytes_Equal (a b : list byte) : bool := bool_decide (a = b).

(** [os.Open]: a missing path is [ErrNotExist]; errors come wrapped in a
    [*PathError]. *)
Definition os_Open (os : OS) (path : string) : error + file :=
  match os_file os path with
  | None => inl (Wrap ("open " +:+ path) (Sentinel ErrNotExist))
  | Some f =>
      match f_open_err f with
      | Some e => inl (Wrap ("open " +:+ path) e)
      | None => inr f
      end
  end.

(** The bytes that can be read before end of file or the read fault. *)
Definition readable (f : file) : list byte :=
  match f_read_fault f with
  | Some (k, _) => take k (f_data f)
  | None => f_data f
  end.

(** [io.ReadFull(f, buf)] with [len(buf) = n], on a freshly opened file:
    the buffer is filled when [n] bytes can be read; otherwise the read
    error is returned, which at end of file is [io.EOF] when nothing was
    read and [io.ErrUnexpectedEOF] otherwise. *)
Definition io_ReadFull (f : file) (n : nat) : list byte * option error :=
  let avail := readable f in
  if decide (n ≤ length avail) then (take n avail, None)
  else
    let at_eof :=
      Some (Sentinel (if decide (length avail = 0) then EOF else ErrUnexpectedEOF)) in
    match f_read_fault f with
    | Some (k, e) =>
        if decide (k < length (f_data f)) then (avail, Some e) else (avail, at_eof)
    | None => (avail, at_eof)
    end.

(** [f.Stat()] followed by [info.Size()]. *)
Definition file_Stat (f : file) : error + Z :=
  match f_stat_err f with
  | Some e => inl e
  | None => inr (Z.of_nat (length (f_data f)))
  end.

(** [checkSQLiteMagic]: the triple [(matchResult, bool, error)] of the Go
    function. *)
Definition checkSQLiteMagic (os : OS) (path : string)
  : matchResult * bool * option error :=
  match os_Open os path with
  | inl err => (matchResult_zero, false, Some err)
  | inr f =>
      let '(buf, rerr) := io_ReadFull f (length sqliteMagic) in
      match rerr with
      | Some err =>
          if errors_Is err EOF || errors_Is err ErrUnexpectedEOF
          then (matchResult_zero, false, None)
          else (matchResult_zero, false, Some err)
      | None =>
          if negb (bytes_Equal buf sqliteMagic)
          then (matchResult_zero, false, None)
          else
            match file_Stat f with
            | inl err => (matchResult_zero, false, Some err)
            | inr size => ({| Path := path; Size := size |}, true, None)
            end
      end
  end.

(** ** The root resolver *)

(** The loop of [resolveRoots]: [seen] is the Go map used as a set,
    [resolved] the slice under construction. *)
Fixpoint resolveRoots_loop (os : OS) (roots : list string)
    (seen : gset string) (resolved : list string) : list string :=
  match roots with
  | [] => resolved
  | root :: rest =>
      let r :=
        match filepath_EvalSymlinks os root with
        | inr resolvedRoot => resolvedRoot
        | inl _ => root
        end in
      match os_Stat os r with
      | None =>
          if bool_decide (r ∈ seen) then resolveRoots_loop os rest seen resolved
          else resolveRoots_loop os rest ({[r]} ∪ seen) (resolved ++ [r])
      | Some _ =>
          if bool_decide (root ∈ seen) then resolveRoots_loop os rest seen resolved
          else resolveRoots_loop os rest ({[root]} ∪ seen) (resolved ++ [root])
      end
  end.

Definition resolveRoots (os : OS) (roots : list string) : list string :=
  resolveRoots_loop os roots ∅ [].

(** ** Directory traversal *)

(** A [fs.WalkDirFunc] run in the scanner: besides its return value it may
    send paths on the [paths] channel; the sends are collected in order. *)
Definition WalkDirFunc : Type :=
  string -> option node -> option error -> list string * option error.

Definition IsDir (d : node) : bool :=
  match d with NDir _ _ => true | _ => false end.

Definition IsRegular (d : node) : bool :=
  match d with NReg => true | _ => false end.

(** The entries of a directory, visited in order until one fails. *)
Fixpoint walk_entries (visit : string -> node -> list string * option error)
    (entries : list (string * node)) : list string * option error :=
  match entries with
  | [] => ([], None)
  | (name, d1) :: rest =>
      let '(sent, err) := visit name d1 in
      match err with
      | Some e => (sent, Some e)
      | None =>
          let '(sent', err') := walk_entries visit rest in
          (sent ++ sent', err')
      end
  end.

(** [filepath.walkDir] of the Go library: the callback is called on the
    entry; a directory is then read, a read error is reported by a second
    call, and the entries that were read are visited.  The callbacks of this
    program return nil or the error they were handed, never [SkipDir] or
    [SkipAll], so those cases of the library are left out. *)
Fixpoint walkDir (os : OS) (fn : WalkDirFunc) (path : string) (d : node)
    {struct d} : list string * option error :=
  let '(sent1, err1) := fn path (Some d) None in
  match err1 with
  | Some e => (sent1, Some e)
  | None =>
      match d with
      | NDir rerr entries =>
          let '(sent2, err2) :=
            match rerr with
            | Some e => fn path (Some d) (Some e)
            | None => ([], None)
            end in
          match err2 with
          | Some e => (sent1 ++ sent2, Some e)
          | None =>
              let '(sent3, err3) :=
                walk_entries
                  (fun name d1 => walkDir os fn (filepath_Join os path name) d1)
                  entries in
              (sent1 ++ sent2 ++ sent3, err3)
          end
      | _ => (sent1, None)
      end
  end.

(** [filepath.WalkDir]: a root that cannot be [Lstat]ed is reported to the
    callback with a nil entry. *)
Definition WalkDir (os : OS) (fn : WalkDirFunc) (root : string)
  : list string * option error :=
  match os_Lstat os root with
  | inl err => fn root None (Some err)
  | inr info => walkDir os fn root info
  end.

(** The callback handed to [filepath.WalkDir] in [scanPaths]: a send on
    [paths] is recorded in the first component. *)
Definition walkFn : WalkDirFunc := fun path d err =>
  match err with
  | Some e =>
      if errors_Is e ErrPermission then ([], None) else ([], Some e)
  | None =>
      match d with
      | Some d => if IsRegular d then ([path], None) else ([], None)
      | None => ([], None)
      end
  end.

(** The walk of the entries of the directory [path] by the scanner. *)
Definition walk_dir (os : OS) (path : string) (entries : list (string * node))
  : list string * option error :=
  walk_entries (fun name d1 => walkDir os walkFn (filepath_Join os path name) d1)
    entries.

(** What the traversal goroutine of a root does: the sends on [paths], in
    order, and the error it then joins into [walkErr]. *)
Definition walk_root (os : OS) (root : string) : list string * option error :=
  WalkDir os walkFn root.

(** ** The scan pipeline *)

(** A worker goroutine of [scanPaths] is either at the receive of
    [for p := range paths], blocked in [errs <- ...], blocked in
    [matches <- res], or has left its loop. *)
Inductive wstate :=
| WRecv
| WSendErr (e : error)
| WSendMatch (m : matchResult)
| WDone.

(** The body of the worker loop for a received path [p], up to the next
    channel operation. *)
Definition worker_probe (os : OS) (p : string) : wstate :=
  let '(res, ok, err) := checkSQLiteMagic os p in
  match err with
  | Some e =>
      if negb (errors_Is e ErrPermission) then WSendErr (Wrap p e) else WRecv
  | None => if ok then WSendMatch res else WRecv
  end.

(** A traversal goroutine: the sends it still has to do and the value its
    [filepath.WalkDir] call returns after them, or finished. *)
Inductive walker :=
| Walking (pending : list string) (ret : option error)
| WalkDone.

(** What reads the [errs] channel: the empty loop of [findSQLiteFiles] or
    the loop of [main] that prints a warning per error. *)
Inductive errSink := Discard | Warn.

(** The state of a scan.  [st_ret] is set when [scanPaths] has closed
    [matches] and [errs] and returned.  [st_probed] and [st_dropped] are
    history variables: the paths handed to [checkSQLiteMagic] and the errors
    received by the empty loop; the program does not keep them. *)
Record state := {
  st_walkers : list walker;
  st_walkErr : option error;
  st_paths : list string;
  st_pathsClosed : bool;
  st_workers : list wstate;
  st_matches : list matchResult;
  st_errs : list error;
  st_ret : option (option error);
  st_out : list matchResult;
  st_warned : list error;
  st_dropped : list error;
  st_probed : list string
}.

Definition walker_done (w : walker) : bool :=
  match w with WalkDone => true | _ => false end.

Definition worker_done (w : wstate) : bool :=
  match w with WDone => true | _ => false end.

Definition worker_sending (w : wstate) : bool :=
  match w with WSendErr _ | WSendMatch _ => true | _ => false end.

Definition worker_receiving (w : wstate) : bool :=
  match w with WRecv => true | _ => false end.

(** The atomic steps of the goroutines: traversal goroutine [i], the
    goroutine that closes [paths], worker [j], the end of [scanPaths], the
    reader of [matches] and the reader of [errs]. *)
Inductive action :=
| AWalk (i : nat)
| AClosePaths
| AWork (j : nat)
| AReturn
| ACollect
| AErrSink.

(** The state in which [scanPaths roots workers matches errs] starts:
    [workers] worker goroutines and one traversal goroutine per root. *)
Definition init (os : OS) (roots : list string) (workers : nat) : state :=
  {| st_walkers := (fun r => let '(sent, ret) := walk_root os r in Walking sent ret) <$> roots;
     st_walkErr := None;
     st_paths := [];
     st_pathsClosed := false;
     st_workers := replicate workers WRecv;
     st_matches := [];
     st_errs := [];
     st_ret := None;
     st_out := [];
     st_warned := [];
     st_dropped := [];
     st_probed := [] |}.

(** One step.  [None] means the action is not enabled (the goroutine is
    blocked or has finished).  The channels are buffered: [paths] holds
    [workers*4] values, [matches] [workers*2] and [errs] [workers]. *)
Definition step (os : OS) (workers : nat) (sink : errSink)
    (a : action) (s : state) : option state :=
  let '{| st_walkers := wk; st_walkErr := we; st_paths := ps;
          st_pathsClosed := pc; st_workers := ws; st_matches := ms;
          st_errs := es; st_ret := ret; st_out := out; st_warned := wn;
          st_dropped := dr; st_probed := pr |} := s in
  match a with
  | AWalk i =>
      match wk !! i with
      | Some (Walking (p :: rest) r) =>
          if decide (length ps < workers * 4)
          then Some {| st_walkers := <[i := Walking rest r]> wk; st_walkErr := we;
                       st_paths := ps ++ [p]; st_pathsClosed := pc;
                       st_workers := ws; st_matches := ms; st_errs := es;
                       st_ret := ret; st_out := out; st_warned := wn;
                       st_dropped := dr; st_probed := pr |}
          else None
      | Some (Walking [] r) =>
          Some {| st_walkers := <[i := WalkDone]> wk;
                  st_walkErr :=
                    match r with
                    | Some e => errors_Join we (Some e)
                    | None => we
                    end;
                  st_paths := ps; st_pathsClosed := pc;
                  st_workers := ws; st_matches := ms; st_errs := es;
                  st_ret := ret; st_out := out; st_warned := wn;
                  st_dropped := dr; st_probed := pr |}
      | _ => None
      end
  | AClosePaths =>
      if forallb walker_done wk && negb pc
      then Some {| st_walkers := wk; st_walkErr := we; st_paths := ps;
                   st_pathsClosed := true; st_workers := ws; st_matches := ms;
                   st_errs := es; st_ret := ret; st_out := out;
                   st_warned := wn; st_dropped := dr; st_probed := pr |}
      else None
  | AWork j =>
      match ws !! j with
      | Some WRecv =>
          match ps with
          | p :: rest =>
              Some {| st_walkers := wk; st_walkErr := we; st_paths := rest;
                      st_pathsClosed := pc;
                      st_workers := <[j := worker_probe os p]> ws;
                      st_matches := ms; st_errs := es; st_ret := ret;
                      st_out := out; st_warned := wn; st_dropped := dr;
                      st_probed := pr ++ [p] |}
          | [] =>
              if pc
              then Some {| st_walkers := wk; st_walkErr := we; st_paths := [];
                           st_pathsClosed := pc; st_workers := <[j := WDone]> ws;
                           st_matches := ms; st_errs := es; st_ret := ret;
                           st_out := out; st_warned := wn; st_dropped := dr;
                           st_probed := pr |}
              else None
          end
      | Some (WSendErr e) =>
          if decide (length es < workers)
          then Some {| st_walkers := wk; st_walkErr := we; st_paths := ps;
                       st_pathsClosed := pc; st_workers := <[j := WRecv]> ws;
                       st_matches := ms; st_errs := es ++ [e]; st_ret := ret;
                       st_out := out; st_warned := wn; st_dropped := dr;
                       st_probed := pr |}
          else None
      | Some (WSendMatch m) =>
          if decide (length ms < workers * 2)
          then Some {| st_walkers := wk; st_walkErr := we; st_paths := ps;
                       st_pathsClosed := pc; st_workers := <[j := WRecv]> ws;
                       st_matches := ms ++ [m]; st_errs := es; st_ret := ret;
                       st_out := out; st_warned := wn; st_dropped := dr;
                       st_probed := pr |}
          else None
      | _ => None
      end
  | AReturn =>
      match ret with
      | Some _ => None
      | None =>
          if forallb worker_done ws
          then Some {| st_walkers := wk; st_walkErr := we; st_paths := ps;
                       st_pathsClosed := pc; st_workers := ws; st_matches := ms;
                       st_errs := es; st_ret := Some we; st_out := out;
                       st_warned := wn; st_dropped := dr; st_probed := pr |}
          else None
      end
  | ACollect =>
      match ms with
      | m :: rest =>
          Some {| st_walkers := wk; st_walkErr := we; st_paths := ps;
                  st_pathsClosed := pc; st_workers := ws; st_matches := rest;
                  st_errs := es; st_ret := ret; st_out := out ++ [m];
                  st_warned := wn; st_dropped := dr; st_probed := pr |}
      | [] => None
      end
  | AErrSink =>
      match es with
      | e :: rest =>
          Some {| st_walkers := wk; st_walkErr := we; st_paths := ps;
                  st_pathsClosed := pc; st_workers := ws; st_matches := ms;
                  st_errs := rest; st_ret := ret; st_out := out;
                  st_warned := match sink with Warn => wn ++ [e] | Discard => wn end;
                  st_dropped := match sink with Discard => dr ++ [e] | Warn => dr end;
                  st_probed := pr |}
      | [] => None
      end
  end.

(** A schedule is a list of actions; [run] fails when one of them is not
    enabled. *)
Fixpoint run (os : OS) (workers : nat) (sink : errSink)
    (acts : list action) (s : state) : option state :=
  match acts with
  | [] => Some s
  | a :: rest =>
      match step os workers sink a s with
      | Some s' => run os workers sink rest s'
      | None => None
      end
  end.

(** The scan is over when [scanPaths] has returned and both readers have
    emptied their channels: [findSQLiteFiles] then returns [(out, walkErr)],
    and nothing else. *)
Definition finished (s : state) : option (list matchResult * option error) :=
  match st_ret s, st_matches s, st_errs s with
  | Some walkErr, [], [] => Some (st_out s, walkErr)
  | _, _, _ => None
  end.

(** [findSQLiteFiles roots workers] returns [res] under schedule [acts]. *)
Definition findSQLiteFiles_returns (os : OS) (roots : list string)
    (workers : nat) (acts : list action)
    (res : list matchResult * option error) : Prop :=
  exists s, run os workers Discard acts (init os roots workers) = Some s
            /\ finished s = Some res.

(** A scheduler that always finds an enabled action while the scan is not
    over: it empties the result channels first, then lets blocked workers
    send, workers receive, traversals advance, and finally closes. *)
Definition sched (s : state) : option action :=
  match st_errs s, st_matches s with
  | _ :: _, _ => Some AErrSink
  | [], _ :: _ => Some ACollect
  | [], [] =>
      match list_find (fun w => worker_sending w) (st_workers s) with
      | Some (j, _) => Some (AWork j)
      | None =>
          match st_paths s with
          | _ :: _ =>
              (fun jw => AWork jw.1) <$>
                list_find (fun w => worker_receiving w) (st_workers s)
          | [] =>
              match list_find (fun w => negb (walker_done w)) (st_walkers s) with
              | Some (i, _) => Some (AWalk i)
              | None =>
                  if negb (st_pathsClosed s) then Some AClosePaths
                  else
                    match list_find (fun w => worker_receiving w) (st_workers s) with
                    | Some (j, _) => Some (AWork j)
                    | None =>
                        match st_ret s with
                        | None => Some AReturn
                        | Some _ => None
                        end
                    end
              end
          end
      end
  end.

(** The schedule [sched] produces from [s], at most [fuel] actions long. *)
Fixpoint schedule (os : OS) (workers : nat) (sink : errSink)
    (fuel : nat) (s : state) : list action :=
  match fuel, finished s with
  | S fuel', None =>
      match sched s with
      | Some a =>
          match step os workers sink a s with
          | Some s' => a :: schedule os workers sink fuel' s'
          | None => []
          end
      | None => []
      end
  | _, _ => []
  end.

(** The work left in a state; every step lowers it. *)
Definition walker_weight (w : walker) : nat :=
  match w with Walking pending _ => 1 + 4 * length pending | WalkDone => 0 end.

Definition worker_weight (w : wstate) : nat :=
  match w with WRecv => 1 | WSendErr _ | WSendMatch _ => 3 | WDone => 0 end.

Definition weight (s : state) : nat :=
  sum_list (walker_weight <$> st_walkers s)
  + 3 * length (st_paths s)
  + (if st_pathsClosed s then 0 else 1)
  + sum_list (worker_weight <$> st_workers s)
  + length (st_matches s) + length (st_errs s)
  + (match st_ret s with Some _ => 0 | None => 1 end).

(** The paths a state still has to send, and what its workers are about to
    send. *)
Definition walker_pending (w : walker) : list string :=
  match w with Walking pending _ => pending | WalkDone => [] end.

Definition walker_ret (w : walker) : list error :=
  match w with Walking _ (Some e) => leaves e | _ => [] end.

Definition worker_match (w : wstate) : list matchResult :=
  match w with WSendMatch m => [m] | _ => [] end.

Definition worker_err (w : wstate) : list error :=
  match w with WSendErr e => [e] | _ => [] end.

(** The MatchRecords and the errors the probes of a list of paths yield. *)
Definition probe_matches (os : OS) (ps : list string) : list matchResult :=
  ps ≫= (fun p => worker_match (worker_probe os p)).

Definition probe_errs (os : OS) (ps : list string) : list error :=
  ps ≫= (fun p => worker_err (worker_probe os p)).

(** Every path the traversals of [roots] send, root by root. *)
Definition walk_paths (os : OS) (roots : list string) : list string :=
  roots ≫= (fun r => (walk_root os r).1).

(** The walk errors of [roots], root by root. *)
Definition walk_errors (os : OS) (roots : list string) : list error :=
  roots ≫= (fun r => leaves_opt (walk_root os r).2).

(** ** Rendering *)

(** The double quote, the backslash and the line feed. *)
Definition dq : ascii := "034"%char.
Definition bslash : ascii := "092"%char.
Definition nl : ascii := "010"%char.

(** [hex] of [encoding/json]: the digit of a nibble. *)
Definition hex (n : N) : ascii :=
  match n with
  | 0 => "0" | 1 => "1" | 2 => "2" | 3 => "3" | 4 => "4" | 5 => "5"
  | 6 => "6" | 7 => "7" | 8 => "8" | 9 => "9" | 10 => "a" | 11 => "b"
  | 12 => "c" | 13 => "d" | 14 => "e" | _ => "f"
  end%N%char.

(** [htmlSafeSet] of [encoding/json]: the ASCII bytes written as they are. *)
Definition htmlSafe (b : N) : bool :=
  (32 <=? b)%N && (b <? 128)%N
  && negb ((b =? 34) || (b =? 38) || (b =? 60) || (b =? 62) || (b =? 92))%N.

(** The escape [encoding/json] writes for an ASCII byte that is not in
    [htmlSafeSet]. *)
Definition escape_ascii (b : N) : string :=
  String bslash
    (if (b =? 92)%N || (b =? 34)%N then String (ascii_of_N b) ""
     else if (b =? 8)%N then "b"
     else if (b =? 12)%N then "f"
     else if (b =? 10)%N then "n"
     else if (b =? 13)%N then "r"
     else if (b =? 9)%N then "t"
     else String "u" (String "0" (String "0"
            (String (hex (N.shiftr b 4)) (String (hex (N.land b 15)) ""))))).

Definition continuation (lo hi : N) (b : ascii) : bool :=
  (lo <=? N_of_ascii b)%N && (N_of_ascii b <=? hi)%N.

(** [utf8.DecodeRuneInString] at a byte [b >= 0x80] followed by [rest]: the
    rune and its size in bytes, or [None] for [(RuneError, 1)]. *)
Definition decode_rune (b : N) (rest : string) : option (N * nat) :=
  let cont (c : ascii) := N.land (N_of_ascii c) 63 in
  if (194 <=? b)%N && (b <=? 223)%N then
    match rest with
    | String b1 _ =>
        if continuation 128 191 b1
        then Some (N.lor (N.shiftl (N.land b 31) 6) (cont b1), 2)
        else None
    | _ => None
    end
  else if (224 <=? b)%N && (b <=? 239)%N then
    match rest with
    | String b1 (String b2 _) =>
        let lo := if (b =? 224)%N then 160%N else 128%N in
        let hi := if (b =? 237)%N then 159%N else 191%N in
        if continuation lo hi b1 && continuation 128 191 b2
        then Some (N.lor (N.shiftl (N.land b 15) 12)
                     (N.lor (N.shiftl (cont b1) 6) (cont b2)), 3)
        else None
    | _ => None
    end
  else if (240 <=? b)%N && (b <=? 244)%N then
    match rest with
    | String b1 (String b2 (String b3 _)) =>
        let lo := if (b =? 240)%N then 144%N else 128%N in
        let hi := if (b =? 244)%N then 143%N else 191%N in
        if continuation lo hi b1 && continuation 128 191 b2
           && continuation 128 191 b3
        then Some (N.lor (N.shiftl (N.land b 7) 18)
                     (N.lor (N.shiftl (cont b1) 12)
                        (N.lor (N.shiftl (cont b2) 6) (cont b3))), 4)
        else None
    | _ => None
    end
  else None.

(** The loop of [appendString] of [encoding/json] with [escapeHTML] set,
    between the two quotes.  [skip] bytes of a rune already decoded are
    still to be passed over: copied when [copy] holds, dropped after the
    escape of U+2028 or U+2029. *)
Fixpoint appendString_loop (skip : nat) (copy : bool) (src : string) : string :=
  match src with
  | EmptyString => EmptyString
  | String c rest =>
      match skip with
      | S k =>
          if copy then String c (appendString_loop k copy rest)
          else appendString_loop k copy rest
      | O =>
          let b := N_of_ascii c in
          if (b <? 128)%N then
            if htmlSafe b then String c (appendString_loop 0 true rest)
            else escape_ascii b +:+ appendString_loop 0 true rest
          else
            match decode_rune b rest with
            | None =>
                String bslash "ufffd" +:+ appendString_loop 0 true rest
            | Some (r, size) =>
                if (r =? 8232)%N || (r =? 8233)%N
                then String bslash "u202" +:+ String (hex (N.land r 15)) ""
                     +:+ appendString_loop (size - 1) false rest
                else String c (appendString_loop (size - 1) true rest)
            end
      end
  end.

(** [marshalString]: [json.Marshal] of a Go string, whose error is always
    nil. *)
Definition marshalString (v : string) : string :=
  String dq (appendString_loop 0 true v +:+ String dq "").

(** The verb [%d] of [fmt.Sprintf] on an [int64]. *)
Definition Sprintf_d (n : Z) : string := NilZero.string_of_int (Z.to_int n).

(** [formatPath] *)
Definition formatPath (os : OS) (path : string) : string :=
  match filepath_Abs os path with
  | inr ap => ap
  | inl _ => path
  end.

(** A key of the JSON output, between quotes. *)
Definition key (k : string) : string := String dq (k +:+ String dq "").

(** [formatJSONLine] *)
Definition formatJSONLine (os : OS) (m : matchResult) (showSize : bool) : string :=
  let path := formatPath os (Path m) in
  if showSize
  then "{" +:+ key "path" +:+ ": " +:+ marshalString path +:+ ", "
       +:+ key "size" +:+ ": " +:+ Sprintf_d (Size m) +:+ "}"
  else "{" +:+ key "path" +:+ ": " +:+ marshalString path +:+ "}".

(** [formatJSONEntry] *)
Definition formatJSONEntry (os : OS) (m : matchResult) (showSize : bool) : string :=
  let path := formatPath os (Path m) in
  if showSize
  then "    {" +:+ String nl ("      " +:+ key "path" +:+ ": "
       +:+ marshalString path +:+ "," +:+ String nl ("      " +:+ key "size"
       +:+ ": " +:+ Sprintf_d (Size m) +:+ String nl "    }"))
  else "    {" +:+ String nl ("      " +:+ key "path" +:+ ": "
       +:+ marshalString path +:+ String nl "    }").

(** [formatPlainMatch] *)
Definition formatPlainMatch (os : OS) (m : matchResult) (showSize : bool) : string :=
  let path := formatPath os (Path m) in
  if negb showSize then path
  else path +:+ " (" +:+ Sprintf_d (Size m) +:+ " bytes)".

(** [fmt.Println] of one string. *)
Definition Println (s : string) : string := s +:+ String nl "".

(** The loop of the pretty-JSON mode of [streamMatches]: [curr] is the
    record held back, [rest] what the channel still delivers. *)
Fixpoint stream_entries (os : OS) (showSize : bool) (curr : matchResult)
    (rest : list matchResult) : string :=
  match rest with
  | next :: rest' =>
      (formatJSONEntry os curr showSize +:+ String "," (String nl ""))
      +:+ stream_entries os showSize next rest'
  | [] => Println (formatJSONEntry os curr showSize)
  end.

(** What a loop [for m := range matches { fmt.Println(f(m)) }] prints. *)
Fixpoint stream_lines (f : matchResult -> string) (ms : list matchResult) : string :=
  match ms with
  | [] => ""
  | m :: rest => Println (f m) +:+ stream_lines f rest
  end.

(** [streamMatches]: what is written to standard output when the channel
    delivers [ms] and is then closed. *)
Definition streamMatches (os : OS) (ms : list matchResult)
    (jsonOutput jsonl showSize : bool) : string :=
  if jsonl then stream_lines (fun m => formatJSONLine os m showSize) ms
  else if jsonOutput then
    Println "{" +:+ Println ("  " +:+ key "entries" +:+ ": [")
    +:+ match ms with
        | first :: rest => stream_entries os showSize first rest
        | [] => ""
        end
    +:+ Println "  ]" +:+ Println "}"
  else stream_lines (fun m => formatPlainMatch os m showSize) ms.

(** ** Reading the output back *)

(** The lines of a text: every line feed ends a line, and what follows the
    last line feed is a line when it is not empty. *)
Fixpoint lines (s : string) : list string :=
  match s with
  | EmptyString => []
  | String c rest =>
      if Ascii.eqb c nl then EmptyString :: lines rest
      else
        match lines rest with
        | [] => [String c EmptyString]
        | l :: ls => String c l :: ls
        end
  end.

(** JSON values.  A string keeps the text between its quotes as it is
    written, escapes included; a number keeps its digits. *)
Inductive json :=
| JNull
| JBool (b : bool)
| JNumber (text : string)
| JString (raw : string)
| JArray (items : list json)
| JObject (members : list (string * json)).

Definition is_ws (c : ascii) : bool :=
  let n := N_of_ascii c in
  ((n =? 32) || (n =? 9) || (n =? 10) || (n =? 13))%N.

Definition is_digit (c : ascii) : bool :=
  let n := N_of_ascii c in ((48 <=? n) && (n <=? 57))%N.

Definition is_hex (c : ascii) : bool :=
  let n := N_of_ascii c in
  is_digit c || ((97 <=? n) && (n <=? 102))%N || ((65 <=? n) && (n <=? 70))%N.

(** The characters allowed after a backslash, [u] apart. *)
Definition is_escape (c : ascii) : bool :=
  let n := N_of_ascii c in
  ((n =? 34) || (n =? 92) || (n =? 47) || (n =? 98) || (n =? 102)
   || (n =? 110) || (n =? 114) || (n =? 116))%N.

Fixpoint skip_ws (s : string) : string :=
  match s with
  | String c rest => if is_ws c then skip_ws rest else s
  | EmptyString => EmptyString
  end.

Definition prepend (p : string) (r : string * string) : string * string :=
  (p +:+ r.1, r.2).

(** A JSON string after its opening quote: the text up to the closing
    quote and what follows it.  Control characters must be escaped and
    every escape must be one of the grammar. *)
Fixpoint lex_string (s : string) : option (string * string) :=
  match s with
  | EmptyString => None
  | String c rest =>
      if Ascii.eqb c dq then Some (EmptyString, rest)
      else if Ascii.eqb c bslash then
        match rest with
        | String e rest1 =>
            if Ascii.eqb e "u" then
              match rest1 with
              | String h1 (String h2 (String h3 (String h4 rest2))) =>
                  if is_hex h1 && is_hex h2 && is_hex h3 && is_hex h4
                  then prepend (String c (String e (String h1 (String h2
                                  (String h3 (String h4 EmptyString))))))
                         <$> lex_string rest2
                  else None
              | _ => None
              end
            else if is_escape e
            then prepend (String c (String e EmptyString)) <$> lex_string rest1
            else None
        | EmptyString => None
        end
      else if (32 <=? N_of_ascii c)%N
      then prepend (String c EmptyString) <$> lex_string rest
      else None
  end.

Fixpoint lex_digits (s : string) : string * string :=
  match s with
  | String c rest =>
      if is_digit c then prepend (String c EmptyString) (lex_digits rest)
      else (EmptyString, s)
  | EmptyString => (EmptyString, EmptyString)
  end.

(** An integer of the JSON grammar: an optional minus sign, then a single
    zero or digits that do not start with zero.  Fractions and exponents,
    which the scanner never writes, are not read. *)
Definition lex_unsigned (s : string) : option (string * string) :=
  match s with
  | String c rest =>
      if Ascii.eqb c "0" then
        match rest with
        | String c' _ =>
            if is_digit c' then None else Some (String c EmptyString, rest)
        | EmptyString => Some (String c EmptyString, rest)
        end
      else if is_digit c
      then Some (prepend (String c EmptyString) (lex_digits rest))
      else None
  | EmptyString => None
  end.

Definition lex_number (s : string) : option (string * string) :=
  match s with
  | String c rest =>
      if Ascii.eqb c "-" then prepend (String c EmptyString) <$> lex_unsigned rest
      else lex_unsigned s
  | EmptyString => None
  end.

(** [strip_prefix p s] is what follows [p] in [s], when [s] starts with [p]. *)
Fixpoint strip_prefix (p s : string) : option string :=
  match p, s with
  | EmptyString, _ => Some s
  | String a p', String b s' => if Ascii.eqb a b then strip_prefix p' s' else None
  | String _ _, EmptyString => None
  end.

(** The parser: [fuel] bounds the nesting and the number of members and
    items read. *)
Fixpoint parse_value (fuel : nat) (s : string) : option (json * string) :=
  match fuel with
  | O => None
  | S fuel' =>
      match skip_ws s with
      | String c rest =>
          if Ascii.eqb c "{" then
            match skip_ws rest with
            | String c' rest' =>
                if Ascii.eqb c' "}" then Some (JObject [], rest')
                else (fun r => (JObject r.1, r.2)) <$> parse_members fuel' rest
            | EmptyString => None
            end
          else if Ascii.eqb c "[" then
            match skip_ws rest with
            | String c' rest' =>
                if Ascii.eqb c' "]" then Some (JArray [], rest')
                else (fun r => (JArray r.1, r.2)) <$> parse_items fuel' rest
            | EmptyString => None
            end
          else if Ascii.eqb c dq
          then (fun r => (JString r.1, r.2)) <$> lex_string rest
          else
            match strip_prefix "true" (String c rest) with
            | Some r => Some (JBool true, r)
            | None =>
                match strip_prefix "false" (String c rest) with
                | Some r => Some (JBool false, r)
                | None =>
                    match strip_prefix "null" (String c rest) with
                    | Some r => Some (JNull, r)
                    | None =>
                        (fun r => (JNumber r.1, r.2)) <$> lex_number (String c rest)
                    end
                end
            end
      | EmptyString => None
      end
  end
with parse_members (fuel : nat) (s : string) : option (list (string * json) * string) :=
  match fuel with
  | O => None
  | S fuel' =>
      match skip_ws s with
      | String c rest =>
          if Ascii.eqb c dq then
            match lex_string rest with
            | Some (k, r1) =>
                match skip_ws r1 with
                | String c1 r2 =>
                    if Ascii.eqb c1 ":" then
                      match parse_value fuel' r2 with
                      | Some (v, r3) =>
                          match skip_ws r3 with
                          | String c3 r4 =>
                              if Ascii.eqb c3 ","
                              then (fun r => ((k, v) :: r.1, r.2)) <$> parse_members fuel' r4
                              else if Ascii.eqb c3 "}" then Some ([(k, v)], r4)
                              else None
                          | EmptyString => None
                          end
                      | None => None
                      end
                    else None
                | EmptyString => None
                end
            | None => None
            end
          else None
      | EmptyString => None
      end
  end
with parse_items (fuel : nat) (s : string) : option (list json * string) :=
  match fuel with
  | O => None
  | S fuel' =>
      match parse_value fuel' s with
      | Some (v, r1) =>
          match skip_ws r1 with
          | String c r2 =>
              if Ascii.eqb c ","
              then (fun r => (v :: r.1, r.2)) <$> parse_items fuel' r2
              else if Ascii.eqb c "]" then Some ([v], r2)
              else None
          | EmptyString => None
          end
      | None => None
      end
  end.

(** A whole text is JSON when it is one value, white space apart. *)
Definition parse_json (s : string) : option json :=
  match parse_value (S (String.length s)) s with
  | Some (v, rest) =>
      match skip_ws rest with
      | EmptyString => Some v
      | _ => None
      end
  | None => None
  end.

(** The names of the fields of a JSON object. *)
Definition fields (v : json) : list string :=
  match v with JObject members => members.*1 | _ => [] end.

(** ** Notions used to state the properties *)

(** The key of a root: its resolved path when symbolic-link resolution
    succeeds and the resolved path can be [Stat]ed, the root itself
    otherwise. *)
Definition root_key (os : OS) (root : string) : string :=
  match filepath_EvalSymlinks os root with
  | inr resolvedRoot =>
      match os_Stat os resolvedRoot with
      | None => resolvedRoot
      | Some _ => root
      end
  | inl _ => root
  end.

(** A list without its later duplicates: the head, then the rest without
    the head and without its own later duplicates. *)
Fixpoint first_occurrences (l : list string) : list string :=
  match l with
  | [] => []
  | x :: rest => x :: filter (fun y => y ≠ x) (first_occurrences rest)
  end.

(** The regular files of a tree, in the order of the walk. *)
Fixpoint regular_files (os : OS) (path : string) (d : node) : list string :=
  match d with
  | NReg => [path]
  | NOther => []
  | NDir _ entries =>
      flat_map (fun nd => regular_files os (filepath_Join os path nd.1) nd.2) entries
  end.

(** A tree in which every directory read either succeeds or fails with a
    permission error. *)
Fixpoint only_permission_errors (d : node) : bool :=
  match d with
  | NDir rerr entries =>
      match rerr with
      | Some e => errors_Is e ErrPermission
      | None => true
      end
      && forallb (fun nd => only_permission_errors nd.2) entries
  | _ => true
  end.

(** The invariant of a scan of [roots] with [workers] workers: nothing is
    lost and nothing is made up, channel by channel, and the closing order
    is respected. *)
Record inv (os : OS) (roots : list string) (workers : nat) (s : state) : Prop := {
  inv_paths :
    walk_paths os roots
    ≡ₚ (st_walkers s ≫= walker_pending) ++ st_paths s ++ st_probed s;
  inv_matches :
    probe_matches os (st_probed s)
    ≡ₚ (st_workers s ≫= worker_match) ++ st_matches s ++ st_out s;
  inv_errs :
    probe_errs os (st_probed s)
    ≡ₚ (st_workers s ≫= worker_err) ++ st_errs s ++ st_warned s ++ st_dropped s;
  inv_walkErr :
    walk_errors os roots
    ≡ₚ (st_walkers s ≫= walker_ret) ++ leaves_opt (st_walkErr s);
  inv_closed :
    st_pathsClosed s = true -> forallb walker_done (st_walkers s) = true;
  inv_done :
    existsb worker_done (st_workers s) = true ->
    st_pathsClosed s = true /\ st_paths s = [];
  inv_ret :
    forall e, st_ret s = Some e ->
      forallb worker_done (st_workers s) = true
      /\ (0 < workers -> e = st_walkErr s);
  inv_workers : length (st_workers s) = workers
}.

(** A text without line feed. *)
Fixpoint no_newline (s : string) : bool :=
  match s with
  | EmptyString => true
  | String c rest => negb (Ascii.eqb c nl) && no_newline rest
  end.

(** A text that does not start with a digit: what may follow a number. *)
Definition no_digit_head (s : string) : bool :=
  match s with
  | String c _ => negb (is_digit c)
  | EmptyString => true
  end.

(** The first [k] characters of [s], as far as there are any, are bytes
    above the ASCII range. *)
Fixpoint high_prefix (k : nat) (s : string) : Prop :=
  match k, s with
  | S k', String c rest => (128 <= N_of_ascii c)%N /\ high_prefix k' rest
  | _, _ => True
  end.

(** A piece of a JSON string: it holds no line feed, and inside a string it
    is read as it is written. *)
Definition piece (p : string) : Prop :=
  no_newline p = true
  /\ forall rest, lex_string (p +:+ rest) = prepend p <$> lex_string rest.

(** A text made of white space only. *)
Fixpoint all_ws (s : string) : bool :=
  match s with
  | EmptyString => true
  | String c rest => is_ws c && all_ws rest
  end.

(** The JSON object a MatchRecord is rendered as: the path as written by
    [marshalString], and the size when it is asked for. *)
Definition match_object (os : OS) (m : matchResult) (showSize : bool) : json :=
  JObject (("path", JString (appendString_loop 0 true (formatPath os (Path m))))
           :: if showSize then [("size", JNumber (Sprintf_d (Size m)))] else []).

(** The lines of a pretty-JSON entry: its last line carries the separating
    comma unless the entry is the last one. *)
Definition entry_lines (os : OS) (showSize : bool) (m : matchResult) (last : bool)
  : list string :=
  let path := formatPath os (Path m) in
  ["    {"]
  ++ (if showSize
      then ["      " +:+ key "path" +:+ ": " +:+ marshalString path +:+ ",";
            "      " +:+ key "size" +:+ ": " +:+ Sprintf_d (Size m)]
      else ["      " +:+ key "path" +:+ ": " +:+ marshalString path])
  ++ [if last then "    }" else "    },"].

Fixpoint entries_lines (os : OS) (showSize : bool) (curr : matchResult)
    (rest : list matchResult) : list string :=
  match rest with
  | next :: rest' =>
      entry_lines os showSize curr false ++ entries_lines os showSize next rest'
  | [] => entry_lines os showSize curr true
  end.

(** The number of lines of [l] equal to [x]. *)
Definition count_lines (x : string) (l : list string) : nat :=
  length (filter (fun y => y = x) l).

(** ** A small file system for examples *)

Definition payload (s : string) : list byte := sqliteMagic ++ list_byte_of_string s.

Definition plain_file (data : list byte) : file :=
  {| f_data := data; f_open_err := None; f_read_fault := None; f_stat_err := None |}.

Definition locked_file (data : list byte) : file :=
  {| f_data := data; f_open_err := Some (Sentinel ErrPermission);
     f_read_fault := None; f_stat_err := None |}.

Definition broken_file (data : list byte) : file :=
  {| f_data := data; f_open_err := None;
     f_read_fault := Some (0, Sentinel (Errno 5)); f_stat_err := None |}.

(** The directory [/r] holds a database, a short file, a database and a
    short file that cannot be opened, a file whose reads fail, and a
    directory [sub] with one more database; [/t] holds a database [b.db]
    and a file [d.db] that no walk reaches; [/link] is a symbolic link to
    [/r]; [/missing] does not exist; the working directory has been
    removed, so that relative paths cannot be made absolute. *)
Definition demo_files : list (string * file) :=
  [ ("/r/bad.bin", plain_file (list_byte_of_string "not sqlite"));
    ("/r/broken.db", broken_file (payload "x"));
    ("/r/good.db", plain_file (payload "lengthy payload"));
    ("/r/locked.db", locked_file (payload "secret"));
    ("/r/locked.txt", locked_file (list_byte_of_string "short"));
    ("/r/sub/x.db", plain_file (payload ""));
    ("/t/b.db", plain_file (payload "b")) ].

Definition demo_sub : node := NDir None [("x.db", NReg)].

Definition demo_r : node :=
  NDir None [("bad.bin", NReg); ("broken.db", NReg); ("good.db", NReg);
             ("locked.db", NReg); ("locked.txt", NReg); ("sub", demo_sub)].

(** In [/t] the directory [a] cannot be read for lack of permission and
    the directory [c] fails with an I/O error. *)
Definition demo_t : node :=
  NDir None [("a", NDir (Some (Wrap "open /t/a" (Sentinel ErrPermission))) []);
             ("b.db", NReg);
             ("c", NDir (Some (Wrap "open /t/c" (Sentinel (Errno 5)))) []);
             ("d.db", NReg)].

Definition lookup_path {A} (p : string) (l : list (string * A)) : option A :=
  (fun kv => kv.2) <$> find (fun kv => String.eqb kv.1 p) l.

Definition demo_os : OS :=
  {| os_file := fun p => lookup_path p demo_files;
     os_Lstat := fun p =>
       match lookup_path p [("/r", demo_r); ("/r/sub", demo_sub); ("/link", NOther);
                            ("/t", demo_t)] with
       | Some n => inr n
       | None => inl (Wrap ("lstat " +:+ p) (Sentinel ErrNotExist))
       end;
     os_Stat := fun p =>
       match lookup_path p [("/r", demo_r); ("/r/sub", demo_sub); ("/link", demo_r);
                            ("/t", demo_t)] with
       | Some _ => None
       | None => Some (Wrap ("stat " +:+ p) (Sentinel ErrNotExist))
       end;
     filepath_EvalSymlinks := fun p =>
       if String.eqb p "/link" then inr "/r"
       else if String.eqb p "/r" || String.eqb p "/r/sub" || String.eqb p "/t" then inr p
       else inl (Wrap ("lstat " +:+ p) (Sentinel ErrNotExist));
     filepath_Join := fun dir name => dir +:+ "/" +:+ name;
     filepath_Abs := fun p =>
       match p with
       | String "/" _ => inr p
       | _ => inl (Wrap "getwd" (Sentinel ErrNotExist))
       end |}.

(** The file system [os] with the file [f] put at [path]. *)
Definition with_file (os : OS) (path : string) (f : file) : OS :=
  {| os_file := fun p => if String.eqb p path then Some f else os_file os p;
     os_Lstat := os_Lstat os;
     os_Stat := os_Stat os;
     filepath_EvalSymlinks := filepath_EvalSymlinks os;
     filepath_Join := filepath_Join os;
     filepath_Abs := filepath_Abs os |}.

(** The traversal goroutines stay in step with the roots: goroutine [i]
    walks root [i] and will return what [filepath.WalkDir] returns for it,
    and [walkErr] is nil exactly when no goroutine that has ended returned
    an error. *)
Record inv_walk (os : OS) (roots : list string) (s : state) : Prop := {
  iw_length : length (st_walkers s) = length roots;
  iw_ret : forall i r pending ret,
    roots !! i = Some r -> st_walkers s !! i = Some (Walking pending ret) ->
    ret = (walk_root os r).2;
  iw_walkErr :
    st_walkErr s = None
    <-> forall i r, roots !! i = Some r -> st_walkers s !! i = Some WalkDone ->
          (walk_root os r).2 = None
}.

(** What has been received from [errs] by its reader. *)
Definition received (sink : errSink) (s : state) : list error :=
  match sink with Warn => st_warned s | Discard => st_dropped s end.

(** With one root and one worker the channels are queues between one
    sender and one receiver each, so the order of the walk is kept: the
    paths sent by the walk are those probed, those in [paths] and those
    still to send, in this order, and likewise for the records and for the
    probe errors; the walk error is that of the one walk. *)
Record inv_order (os : OS) (root : string) (sink : errSink) (s : state) : Prop := {
  io_walker : exists wk, st_walkers s = [wk]
    /\ (walk_root os root).1 = st_probed s ++ st_paths s ++ walker_pending wk
    /\ match wk with
       | Walking _ ret => ret = (walk_root os root).2 /\ st_walkErr s = None
       | WalkDone => st_walkErr s = errors_Join None (walk_root os root).2
       end;
  io_worker : exists w, st_workers s = [w]
    /\ probe_matches os (st_probed s) = st_out s ++ st_matches s ++ worker_match w
    /\ probe_errs os (st_probed s) = received sink s ++ st_errs s ++ worker_err w
}.

(** Without workers nothing moves through the channels. *)
Record inv_idle (s : state) : Prop := {
  ii_workers : st_workers s = [];
  ii_paths : st_paths s = [];
  ii_matches : st_matches s = [];
  ii_errs : st_errs s = [];
  ii_out : st_out s = [];
  ii_warned : st_warned s = [];
  ii_dropped : st_dropped s = [];
  ii_probed : st_probed s = []
}.



(** ** The command *)

(** [var version = "dev"] *)
Definition version : string := "dev".

(** The command line after [pflag.Parse]: the values of the flags and the
    positional arguments. *)
Record flags := {
  fl_path : string;
  fl_workers : Z;
  fl_json : bool;
  fl_size : bool;
  fl_jsonl : bool;
  fl_version : bool;
  fl_args : list string
}.

(** What [main] writes to standard error, line by line:
    [workers must be > 0], [warning: err] and
    [scan completed with walk error: err]. *)
Inductive diag :=
| DWorkers
| DWarning (e : error)
| DWalkError (e : error).

(** What a run of the command leaves behind: standard output, standard
    error and the exit status. *)
Record outcome := {
  o_stdout : string;
  o_stderr : list diag;
  o_exit : Z
}.

(** The roots [main] scans: the positional arguments, or the value of
    [--path] when there is none, passed through [resolveRoots]. *)
Definition main_roots (os : OS) (fl : flags) : list string :=
  resolveRoots os (match fl_args fl with
                   | [] => [fl_path fl]
                   | _ :: _ => fl_args fl
                   end).

(** [main] under the schedule [acts] of the goroutines of the scan; [None]
    when the schedule does not run the scan to its end.  The printing
    goroutine is the reader of [matches] and writes [streamMatches] of what
    it receives; the warning goroutine is the reader of [errs].  The
    channels are taken to be allocated. *)
Definition main (os : OS) (fl : flags) (acts : list action) : option outcome :=
  if fl_version fl
  then Some {| o_stdout := Println version; o_stderr := []; o_exit := 0 |}
  else
    let roots := main_roots os fl in
    if (fl_workers fl <=? 0)%Z
    then Some {| o_stdout := ""; o_stderr := [DWorkers]; o_exit := 2 |}
    else
      let workers := Z.to_nat (fl_workers fl) in
      match run os workers Warn acts (init os roots workers) with
      | Some s =>
          match finished s with
          | Some (out, walkErr) =>
              Some {| o_stdout :=
                        streamMatches os out (fl_json fl) (fl_jsonl fl) (fl_size fl);
                      o_stderr :=
                        (DWarning <$> st_warned s)
                        ++ match walkErr with
                           | Some e => [DWalkError e]
                           | None => []
                           end;
                      o_exit := 0 |}
          | None => None
          end
      | None => None
      end.

(** [sqlite-scanner --workers 2 --json --size /link /t] *)
Definition demo_flags : flags :=
  {| fl_path := "."; fl_workers := 2; fl_json := true; fl_size := true;
     fl_jsonl := false; fl_version := false; fl_args := ["/link"; "/t"] |}.

(** * Properties *)

(** ** The header prober *)







(** ** The root resolver *)

Lemma filter_filter_absorb (seen : gset string) (k : string) (l : list string) :
  k ∈ seen ->
  filter (fun x => x ∉ seen) (filter (fun x => x ≠ k) l)
  = filter (fun x => x ∉ seen) l.
Proof.
  intros Hk. induction l as [|x l IH]; [done|].
  rewrite !filter_cons. destruct (decide (x ≠ k)) as [Hx|Hx].
  - rewrite filter_cons. destruct (decide (x ∉ seen)); by rewrite IH.
  - apply dec_stable in Hx. subst x. rewrite decide_False by (intros H; by apply H).
    done.
Qed.

Lemma filter_filter_insert (seen : gset string) (k : string) (l : list string) :
  filter (fun x => x ∉ seen) (filter (fun x => x ≠ k) l)
  = filter (fun x => x ∉ {[k]} ∪ seen) l.
Proof.
  induction l as [|x l IH]; [done|].
  rewrite !filter_cons. destruct (decide (x ≠ k)) as [Hx|Hx].
  - rewrite filter_cons. destruct (decide (x ∉ seen)) as [Hs|Hs].
    + rewrite decide_True by set_solver. by rewrite IH.
    + rewrite decide_False by set_solver. done.
  - apply dec_stable in Hx. subst x. rewrite decide_False by set_solver. done.
Qed.

Lemma filter_id {A} (P : A -> Prop) `{!forall x, Decision (P x)} (l : list A) :
  (forall x, x ∈ l -> P x) -> filter P l = l.
Proof.
  induction l as [|x l IH]; intros Hall; [done|].
  rewrite filter_cons_True by (apply Hall; left).
  f_equal. apply IH. intros y Hy. apply Hall. by right.
Qed.

Lemma resolveRoots_loop_spec (os : OS) (roots : list string)
    (seen : gset string) (resolved : list string) :
  resolveRoots_loop os roots seen resolved
  = resolved ++ filter (fun x => x ∉ seen) (first_occurrences (root_key os <$> roots)).
Proof.
  revert seen resolved. induction roots as [|root rest IH]; intros seen resolved.
  - simpl. by rewrite app_nil_r.
  - assert (forall k, root_key os root = k ->
      (if bool_decide (k ∈ seen) then resolveRoots_loop os rest seen resolved
       else resolveRoots_loop os rest ({[k]} ∪ seen) (resolved ++ [k]))
      = resolved ++ filter (fun x => x ∉ seen)
                      (first_occurrences (root_key os <$> root :: rest))) as Hstep.
    { intros k Hk. rewrite fmap_cons, Hk. simpl. rewrite filter_cons.
      case_bool_decide as Hin.
      - rewrite decide_False by (intros Hn; by apply Hn).
        rewrite IH. by rewrite filter_filter_absorb.
      - rewrite decide_True by done. rewrite IH, <- app_assoc. simpl.
        by rewrite filter_filter_insert. }
    simpl. unfold root_key in Hstep.
    destruct (filepath_EvalSymlinks os root) as [e|r].
    + destruct (os_Stat os root); by apply Hstep.
    + destruct (os_Stat os r); by apply Hstep.
Qed.

Lemma first_occurrences_elem (l : list string) (x : string) :
  x ∈ first_occurrences l <-> x ∈ l.
Proof.
  induction l as [|y l IH]; [done|]. simpl.
  rewrite !elem_of_cons, list_elem_of_filter, IH.
  destruct (decide (x = y)); naive_solver.
Qed.

Lemma first_occurrences_NoDup (l : list string) : NoDup (first_occurrences l).
Proof.
  induction l as [|y l IH]; simpl; [constructor|].
  constructor.
  - rewrite list_elem_of_filter. naive_solver.
  - by apply NoDup_filter.
Qed.

Lemma first_occurrences_sublist (l : list string) : sublist (first_occurrences l) l.
Proof.
  induction l as [|y l IH]; simpl; [done|].
  constructor. etrans; [apply sublist_filter|done].
Qed.

(** C5.  [resolveRoots] returns the keys of its inputs (the resolved path
    when resolution succeeds and the resolved path exists, the raw path
    otherwise), each key once, in the order of first appearance: the result
    has no duplicates, holds exactly the keys of the inputs, is a
    subsequence of the list of keys, and the result for a longer input list
    extends the result for a shorter one.  Two inputs with one key (a root
    given raw and through a symbolic link that resolves to it) give one
    entry, and a root that does not exist is kept as it is, without an
    error. *)
Theorem resolveRoots_spec (os : OS) (roots : list string) :
  resolveRoots os roots = first_occurrences (root_key os <$> roots)
  /\ NoDup (resolveRoots os roots)
  /\ (forall x, x ∈ resolveRoots os roots <-> x ∈ root_key os <$> roots)
  /\ sublist (resolveRoots os roots) (root_key os <$> roots)
  /\ (forall more,
        resolveRoots os (roots ++ more)
        = resolveRoots os roots
          ++ filter (fun x => x ∉ resolveRoots os roots) (resolveRoots os more))
  /\ (forall raw link, root_key os raw = root_key os link ->
        resolveRoots os [raw; link] = [root_key os raw])
  /\ (forall root e e', filepath_EvalSymlinks os root = inl e ->
        os_Stat os root = Some e' -> resolveRoots os [root] = [root]).
Proof.
  assert (forall l, resolveRoots os l = first_occurrences (root_key os <$> l)) as Heq.
  { intros l. unfold resolveRoots. rewrite resolveRoots_loop_spec. simpl.
    apply filter_id. intros x _. set_solver. }
  rewrite !Heq. split_and!.
  - done.
  - apply first_occurrences_NoDup.
  - intros x. apply first_occurrences_elem.
  - apply first_occurrences_sublist.
  - intros more. rewrite !Heq, fmap_app.
    generalize (root_key os <$> more) as l2.
    induction (root_key os <$> roots) as [|k l1 IH]; intros l2; simpl.
    + symmetry. apply filter_id. intros x _. set_solver.
    + f_equal. rewrite IH, filter_app. f_equal.
      rewrite list_filter_filter. apply list_filter_iff.
      intros x. rewrite elem_of_cons, list_elem_of_filter.
      destruct (decide (x = k)); naive_solver.
  - intros raw link Hk. rewrite Heq. simpl. rewrite <- Hk, filter_cons.
    by rewrite decide_False by (intros Hn; by apply Hn).
  - intros root e e' He Hs. rewrite Heq. simpl. unfold root_key. by rewrite He.
Qed.

Lemma resolveRoots_spec_witness :
  resolveRoots demo_os ["/r"; "/link"] = ["/r"]
  /\ resolveRoots demo_os ["/missing"] = ["/missing"].
Proof.
  pose proof (resolveRoots_spec demo_os []) as (_ & _ & _ & _ & _ & Hdup & Hmiss).
  split.
  - apply (Hdup "/r" "/link"). reflexivity.
  - eapply (Hmiss "/missing"); reflexivity.
Defined.

Example resolveRoots_demo :
  resolveRoots demo_os ["/r"; "/link"; "/r/sub"; "/missing"; "/r"]
  = ["/r"; "/r/sub"; "/missing"].
Proof. vm_compute. reflexivity. Qed.

(** ** Directory traversal *)

Lemma node_ind' (P : node -> Prop) :
  P NReg -> P NOther ->
  (forall rerr entries, Forall (fun nd => P nd.2) entries -> P (NDir rerr entries)) ->
  forall d, P d.
Proof.
  intros HReg HOther HDir. fix IH 1. intros [| |rerr entries]; [done|done|].
  apply HDir. induction entries as [|[name d] entries IHentries]; constructor.
  - apply IH.
  - apply IHentries.
Qed.

Lemma walkFn_error (path : string) (d : option node) (e : error) :
  walkFn path d (Some e)
  = ([], if errors_Is e ErrPermission then None else Some e).
Proof. unfold walkFn. by destruct (errors_Is e ErrPermission). Qed.

Lemma walkDir_dir (os : OS) (path : string) (rerr : option error)
    (entries : list (string * node)) :
  walkDir os walkFn path (NDir rerr entries)
  = match rerr with
    | Some e =>
        if errors_Is e ErrPermission
        then walk_entries (fun name d1 => walkDir os walkFn (filepath_Join os path name) d1) entries
        else ([], Some e)
    | None =>
        walk_entries (fun name d1 => walkDir os walkFn (filepath_Join os path name) d1) entries
    end.
Proof.
  simpl. destruct rerr as [e|]; simpl.
  - destruct (errors_Is e ErrPermission); [|done].
    by destruct (walk_entries _ entries).
  - by destruct (walk_entries _ entries).
Qed.

Lemma walk_entries_cons (visit : string -> node -> list string * option error)
    (name : string) (d : node) (rest : list (string * node)) :
  walk_entries visit ((name, d) :: rest)
  = match (visit name d).2 with
    | Some e => visit name d
    | None => ((visit name d).1 ++ (walk_entries visit rest).1,
               (walk_entries visit rest).2)
    end.
Proof.
  simpl. destruct (visit name d) as [sent [e|]]; [done|].
  by destruct (walk_entries visit rest).
Qed.

(** In a tree whose only read errors are permission errors the walk sends
    every regular file that was listed and returns nil. *)
Lemma walkDir_only_permission_errors (os : OS) (d : node) (path : string) :
  only_permission_errors d = true ->
  walkDir os walkFn path d = (regular_files os path d, None).
Proof.
  revert path. induction d as [| |rerr entries IH] using node_ind'; intros path Hok;
    [done|done|].
  rewrite walkDir_dir. simpl in Hok. apply andb_true_iff in Hok as [Hr Hes].
  assert (walk_entries
            (fun name d1 => walkDir os walkFn (filepath_Join os path name) d1) entries
          = (regular_files os path (NDir rerr entries), None)) as ->.
  { simpl. clear Hr. induction entries as [|[name d] entries IHentries]; [done|].
    apply Forall_cons in IH as [IHd IHrest]. simpl in Hes.
    apply andb_true_iff in Hes as [Hd Hrest].
    rewrite walk_entries_cons, (IHd _ Hd), (IHentries IHrest Hrest). done. }
  destruct rerr as [e|]; [|done]. by rewrite Hr.
Qed.

(** ** The scan pipeline *)

Section list_update.
Context {A B : Type}.
Implicit Types (l : list A) (f : A -> list B) (g : A -> nat) (h : A -> bool).

Lemma bind_lookup_perm f l i x :
  l !! i = Some x -> l ≫= f ≡ₚ f x ++ (delete i l ≫= f).
Proof.
  revert i. induction l as [|a l IH]; intros [|i] Hi; simplify_eq/=; [done|].
  rewrite (IH _ Hi). by rewrite !app_assoc, (Permutation_app_comm (f a)).
Qed.

Lemma bind_insert_perm f l i x y :
  l !! i = Some x -> <[i:=y]> l ≫= f ≡ₚ f y ++ (delete i l ≫= f).
Proof.
  revert i. induction l as [|a l IH]; intros [|i] Hi; simplify_eq/=; [done|].
  rewrite (IH _ Hi). by rewrite !app_assoc, (Permutation_app_comm (f a)).
Qed.

Lemma sum_lookup g l i x :
  l !! i = Some x -> sum_list (g <$> l) = g x + sum_list (g <$> delete i l).
Proof.
  revert i. induction l as [|a l IH]; intros [|i] Hi; simplify_eq/=; [done|].
  rewrite (IH _ Hi). lia.
Qed.

Lemma sum_insert g l i x y :
  l !! i = Some x -> sum_list (g <$> <[i:=y]> l) = g y + sum_list (g <$> delete i l).
Proof.
  revert i. induction l as [|a l IH]; intros [|i] Hi; simplify_eq/=; [done|].
  rewrite (IH _ Hi). lia.
Qed.

Lemma forallb_lookup h l i x :
  forallb h l = true -> l !! i = Some x -> h x = true.
Proof.
  revert i. induction l as [|a l IH]; intros [|i] Hall Hi; simplify_eq/=;
    apply andb_true_iff in Hall as [Ha Hl]; eauto.
Qed.

Lemma existsb_insert h l i y :
  existsb h (<[i:=y]> l) = true -> h y = true \/ existsb h l = true.
Proof.
  revert i. induction l as [|a l IH]; intros [|i] Hex; simplify_eq/=;
    apply orb_true_iff in Hex as [Ha|Hl]; rewrite ?orb_true_iff; eauto.
  destruct (IH _ Hl); eauto.
Qed.

Lemma forallb_existsb h l :
  forallb h l = true -> 0 < length l -> existsb h l = true.
Proof. destruct l as [|a l]; simpl; [lia|]. intros [-> _]%andb_true_iff _. done. Qed.

End list_update.

Lemma leaves_opt_Join (we : option error) (e : error) :
  leaves_opt (errors_Join we (Some e)) = leaves_opt we ++ leaves e.
Proof. destruct we as [x|]; simpl; by rewrite ?app_nil_r. Qed.

Lemma probe_matches_snoc (os : OS) (pr : list string) (p : string) :
  probe_matches os (pr ++ [p])
  = probe_matches os pr ++ worker_match (worker_probe os p).
Proof. unfold probe_matches. by rewrite bind_app, bind_singleton. Qed.

Lemma probe_errs_snoc (os : OS) (pr : list string) (p : string) :
  probe_errs os (pr ++ [p]) = probe_errs os pr ++ worker_err (worker_probe os p).
Proof. unfold probe_errs. by rewrite bind_app, bind_singleton. Qed.

Lemma worker_probe_not_done (os : OS) (p : string) :
  worker_done (worker_probe os p) = false.
Proof.
  unfold worker_probe. destruct (checkSQLiteMagic os p) as [[res ok] [e|]].
  - by destruct (errors_Is e ErrPermission).
  - by destruct ok.
Qed.

Lemma init_inv (os : OS) (roots : list string) (workers : nat) :
  inv os roots workers (init os roots workers).
Proof.
  split; simpl; try done.
  - rewrite app_nil_r. unfold walk_paths.
    induction roots as [|r roots IH]; [done|]. csimpl. rewrite <- IH.
    by destruct (walk_root os r).
  - rewrite !app_nil_r. induction workers as [|n IH]; [done|]. by csimpl.
  - rewrite !app_nil_r. induction workers as [|n IH]; [done|]. by csimpl.
  - rewrite app_nil_r. unfold walk_errors.
    induction roots as [|r roots IH]; [done|]. csimpl. rewrite <- IH.
    by destruct (walk_root os r) as [sent [e|]].
  - induction workers as [|n IH]; [done|]. simpl. done.
  - by rewrite length_replicate.
Qed.

Local Ltac perm I H :=
  rewrite ?probe_matches_snoc, ?probe_errs_snoc, ?leaves_opt_Join, I,
    ?(bind_lookup_perm _ _ _ _ H), ?(bind_insert_perm _ _ _ _ _ H);
  simpl; solve_Permutation.

Lemma step_inv (os : OS) (roots : list string) (workers : nat) (sink : errSink)
    (a : action) (s s' : state) :
  inv os roots workers s ->
  step os workers sink a s = Some s' ->
  inv os roots workers s'.
Proof.
  intros [I1 I2 I3 I4 I5 I6 I7 I8] Hstep.
  destruct s as [wk we ps pc ws ms es ret out wn dr pr]. simpl in *.
  destruct a as [i| |j| | |]; simpl in Hstep.
  - (* a traversal goroutine *)
    destruct (wk !! i) as [[[|p rest] r|]|] eqn:Hi; [| |done|done].
    + (* WalkDir has returned *)
      simplify_eq.
      assert (pc = false) as ->.
      { destruct pc; [|done]. by pose proof (forallb_lookup _ _ _ _ (I5 eq_refl) Hi). }
      split; simpl; [perm I1 Hi|perm I2 Hi|perm I3 Hi| |done|done| |done].
      * destruct r as [e|]; perm I4 Hi.
      * intros e He. destruct (I7 e He) as [Hall Hwe]. split; [done|].
        intros Hpos. by destruct (I6 (forallb_existsb _ _ Hall Hpos)).
    + (* a send on paths *)
      case_decide; [|done]. simplify_eq.
      assert (pc = false) as ->.
      { destruct pc; [|done]. by pose proof (forallb_lookup _ _ _ _ (I5 eq_refl) Hi). }
      split; simpl; [perm I1 Hi|perm I2 Hi|perm I3 Hi|perm I4 Hi|done| |done|done].
      intros Hex. by destruct (I6 Hex).
  - (* paths is closed *)
    destruct (forallb walker_done wk) eqn:Hall; [|done].
    destruct pc; [done|]. simplify_eq/=.
    split; simpl; [done|done|done|done|done| |done|done].
    intros Hex. by destruct (I6 Hex).
  - (* a worker *)
    destruct (ws !! j) as [[|e|m|]|] eqn:Hj; [| | |done|done].
    + destruct ps as [|p rest].
      * destruct pc; [|done]. simplify_eq.
        split; simpl; [perm I1 Hj|perm I2 Hj|perm I3 Hj|perm I4 Hj|done|done| |].
        -- intros e He. destruct (I7 e He) as [Hall _].
           by pose proof (forallb_lookup _ _ _ _ Hall Hj).
        -- by rewrite length_insert.
      * simplify_eq.
        split; simpl; [perm I1 Hj|perm I2 Hj|perm I3 Hj|perm I4 Hj|done| | |].
        -- intros Hex. apply existsb_insert in Hex as [Hd|Hex].
           ++ by rewrite worker_probe_not_done in Hd.
           ++ by destruct (I6 Hex).
        -- intros e He. destruct (I7 e He) as [Hall _].
           by pose proof (forallb_lookup _ _ _ _ Hall Hj).
        -- by rewrite length_insert.
    + case_decide; [|done]. simplify_eq.
      split; simpl; [perm I1 Hj|perm I2 Hj|perm I3 Hj|perm I4 Hj|done| | |].
      * intros Hex. apply existsb_insert in Hex as [Hd|Hex]; [done|]. by apply I6.
      * intros e' He. destruct (I7 e' He) as [Hall _].
        by pose proof (forallb_lookup _ _ _ _ Hall Hj).
      * by rewrite length_insert.
    + case_decide; [|done]. simplify_eq.
      split; simpl; [perm I1 Hj|perm I2 Hj|perm I3 Hj|perm I4 Hj|done| | |].
      * intros Hex. apply existsb_insert in Hex as [Hd|Hex]; [done|]. by apply I6.
      * intros e' He. destruct (I7 e' He) as [Hall _].
        by pose proof (forallb_lookup _ _ _ _ Hall Hj).
      * by rewrite length_insert.
  - (* scanPaths returns *)
    destruct ret; [done|]. destruct (forallb worker_done ws) eqn:Hall; [|done].
    simplify_eq.
    split; simpl; [done|done|done|done|done|done| |done].
    intros e He. by simplify_eq.
  - (* the reader of matches *)
    destruct ms as [|m rest]; [done|]. simplify_eq.
    split; simpl; [done|perm I2 I2|done|done|done|done|done|done].
  - (* the reader of errs *)
    destruct es as [|e rest]; [done|]. simplify_eq.
    split; simpl; [done|done| |done|done|done|done|done].
    destruct sink; perm I3 I3.
Qed.

Lemma run_inv (os : OS) (roots : list string) (workers : nat) (sink : errSink)
    (acts : list action) (s s' : state) :
  inv os roots workers s ->
  run os workers sink acts s = Some s' ->
  inv os roots workers s'.
Proof.
  revert s. induction acts as [|a acts IH]; intros s Hinv Hrun; simpl in Hrun.
  - by simplify_eq.
  - destruct (step os workers sink a s) as [s1|] eqn:Hstep; [|done].
    eauto using step_inv.
Qed.

Lemma bind_nil_forallb {A B} (h : A -> bool) (f : A -> list B) (l : list A) :
  (forall x, h x = true -> f x = []) -> forallb h l = true -> l ≫= f = [].
Proof.
  intros Hf. induction l as [|a l IH]; [done|].
  intros Hall. simpl in Hall. apply andb_true_iff in Hall as [Ha Hl].
  csimpl. rewrite (Hf _ Ha). by apply IH.
Qed.

(** What a finished scan with at least one worker has done: every path the
    traversals sent was probed exactly once, the collected records are those
    of the probes, the errors handed to the error reader are those of the
    probes, and the returned walk error is made of the roots' walk errors. *)
Lemma finished_inv (os : OS) (roots : list string) (workers : nat) (s : state)
    (out : list matchResult) (walkErr : option error) :
  0 < workers ->
  inv os roots workers s ->
  finished s = Some (out, walkErr) ->
  st_probed s ≡ₚ walk_paths os roots
  /\ out ≡ₚ probe_matches os (st_probed s)
  /\ st_warned s ++ st_dropped s ≡ₚ probe_errs os (st_probed s)
  /\ leaves_opt walkErr ≡ₚ walk_errors os roots.
Proof.
  intros Hpos [I1 I2 I3 I4 I5 I6 I7 I8] Hfin. unfold finished in Hfin.
  destruct (st_ret s) as [e|] eqn:Hret; [|done].
  destruct (st_matches s) eqn:Hms; [|done]. destruct (st_errs s) eqn:Hes; [|done].
  simplify_eq. destruct (I7 _ eq_refl) as [Hall Hwe].
  destruct (I6 (forallb_existsb _ _ Hall ltac:(lia))) as [Hpc Hps].
  specialize (I5 Hpc). rewrite Hps in I1.
  rewrite (bind_nil_forallb worker_done worker_match) in I2 by (done || by intros []).
  rewrite (bind_nil_forallb worker_done worker_err) in I3 by (done || by intros []).
  rewrite (bind_nil_forallb walker_done walker_pending) in I1 by (done || by intros []).
  rewrite (bind_nil_forallb walker_done walker_ret) in I4 by (done || by intros []).
  rewrite (Hwe Hpos). simpl in *. by rewrite I1, I2, I3, I4.
Qed.

Lemma worker_probe_weight (os : OS) (p : string) :
  worker_weight (worker_probe os p) ≤ 3.
Proof.
  unfold worker_probe. destruct (checkSQLiteMagic os p) as [[res ok] [e|]].
  - destruct (errors_Is e ErrPermission); simpl; lia.
  - destruct ok; simpl; lia.
Qed.

Lemma step_weight (os : OS) (workers : nat) (sink : errSink) (a : action)
    (s s' : state) :
  step os workers sink a s = Some s' -> weight s' < weight s.
Proof.
  intros Hstep. destruct s as [wk we ps pc ws ms es ret out wn dr pr].
  destruct a as [i| |j| | |]; simpl in Hstep.
  - destruct (wk !! i) as [[[|p rest] r|]|] eqn:Hi; [| |done|done].
    + simplify_eq. unfold weight. simpl.
      rewrite (sum_lookup _ _ _ _ Hi), (sum_insert _ _ _ _ _ Hi). simpl. lia.
    + case_decide; [|done]. simplify_eq. unfold weight. simpl.
      rewrite (sum_lookup _ _ _ _ Hi), (sum_insert _ _ _ _ _ Hi), length_app.
      simpl. lia.
  - destruct (forallb walker_done wk); [|done]. destruct pc; [done|].
    simplify_eq/=. unfold weight. simpl. lia.
  - destruct (ws !! j) as [[|e|m|]|] eqn:Hj; [| | |done|done].
    + destruct ps as [|p rest].
      * destruct pc; [|done]. simplify_eq. unfold weight. simpl.
        rewrite (sum_lookup _ _ _ _ Hj), (sum_insert _ _ _ _ _ Hj). simpl. lia.
      * simplify_eq. unfold weight. simpl.
        rewrite (sum_lookup _ _ _ _ Hj), (sum_insert _ _ _ _ _ Hj). simpl.
        pose proof (worker_probe_weight os p). lia.
    + case_decide; [|done]. simplify_eq. unfold weight. simpl.
      rewrite (sum_lookup _ _ _ _ Hj), (sum_insert _ _ _ _ _ Hj), length_app.
      simpl. lia.
    + case_decide; [|done]. simplify_eq. unfold weight. simpl.
      rewrite (sum_lookup _ _ _ _ Hj), (sum_insert _ _ _ _ _ Hj), length_app.
      simpl. lia.
  - destruct ret; [done|]. destruct (forallb worker_done ws); [|done].
    simplify_eq. unfold weight. simpl. lia.
  - destruct ms as [|m rest]; [done|]. simplify_eq. unfold weight. simpl. lia.
  - destruct es as [|e rest]; [done|]. simplify_eq. unfold weight. simpl. lia.
Qed.

Lemma forallb_neither {A} (h1 h2 h3 : A -> bool) (l : list A) :
  (forall x, h1 x = false -> h2 x = false -> h3 x = true) ->
  Forall (fun x => ¬ h1 x) l -> Forall (fun x => ¬ h2 x) l -> forallb h3 l = true.
Proof.
  intros H. induction l as [|a l IH]; [done|].
  intros [H1 Hl1]%Forall_cons [H2 Hl2]%Forall_cons. simpl.
  rewrite IH by done. rewrite H; [done| |].
  - by destruct (h1 a).
  - by destruct (h2 a).
Qed.

Lemma forallb_not {A} (h : A -> bool) (l : list A) :
  Forall (fun x => ¬ negb (h x)) l -> forallb h l = true.
Proof.
  induction l as [|a l IH]; [done|]. intros [Ha Hl]%Forall_cons. simpl.
  rewrite IH by done. by destruct (h a).
Qed.

(** While the scan is not over, the scheduler finds an enabled action. *)
Lemma sched_step (os : OS) (roots : list string) (workers : nat) (sink : errSink)
    (s : state) :
  0 < workers ->
  inv os roots workers s ->
  finished s = None ->
  exists a s', sched s = Some a /\ step os workers sink a s = Some s'.
Proof.
  intros Hpos [I1 I2 I3 I4 I5 I6 I7 I8] Hfin.
  destruct s as [wk we ps pc ws ms es ret out wn dr pr].
  unfold sched, finished in *. simpl in *.
  destruct es as [|e es]; [|by eauto].
  destruct ms as [|m ms]; [|by eauto].
  destruct (list_find (fun w => worker_sending w) ws) as [[j w]|] eqn:Hsend.
  { apply list_find_Some in Hsend as (Hj & Hw & _).
    exists (AWork j). simpl. rewrite Hj.
    destruct w as [|e|m|]; try done.
    - rewrite decide_True by (simpl; lia). eauto.
    - rewrite decide_True by (simpl; lia). eauto. }
  apply list_find_None in Hsend.
  destruct (list_find (fun w => worker_receiving w) ws) as [[j w]|] eqn:Hrecv.
  - apply list_find_Some in Hrecv as (Hj & Hw & _). destruct w; try done.
    destruct ps as [|p ps]; simpl.
    + destruct (list_find (fun w => negb (walker_done w)) wk) as [[i w]|] eqn:Hwalk.
      * apply list_find_Some in Hwalk as (Hi & Hw' & _).
        exists (AWalk i). simpl. rewrite Hi. destruct w as [[|p rest] r|]; try done.
        -- eauto.
        -- rewrite decide_True by (simpl; lia). eauto.
      * apply list_find_None, forallb_not in Hwalk.
        destruct pc; simpl.
        -- exists (AWork j). simpl. rewrite Hj. eauto.
        -- exists AClosePaths. simpl. rewrite Hwalk. simpl. eauto.
    + exists (AWork j). simpl. rewrite Hj. eauto.
  - apply list_find_None in Hrecv.
    assert (forallb worker_done ws = true) as Hall.
    { apply (forallb_neither worker_sending worker_receiving); [|done|done].
      by intros []. }
    destruct (I6 (forallb_existsb _ _ Hall ltac:(lia))) as [-> ->]. simpl.
    rewrite (I5 eq_refl) in *.
    destruct (list_find (fun w => negb (walker_done w)) wk) as [[i w]|] eqn:Hwalk.
    { apply list_find_Some in Hwalk as (Hi & Hw' & _).
      pose proof (forallb_lookup _ _ _ _ (I5 eq_refl) Hi) as Hd.
      by rewrite Hd in Hw'. }
    destruct ret; [done|]. exists AReturn. simpl. rewrite Hall. eauto.
Qed.

Lemma weight_0_finished (s : state) : weight s = 0 -> is_Some (finished s).
Proof.
  destruct s as [wk we ps pc ws ms es ret out wn dr pr]. unfold weight, finished.
  simpl. destruct ret; [|lia]. destruct ms; simpl; [|lia]. destruct es; simpl; [|lia].
  eauto.
Qed.

Lemma schedule_finishes (os : OS) (roots : list string) (workers : nat)
    (sink : errSink) (fuel : nat) (s : state) :
  0 < workers ->
  inv os roots workers s ->
  weight s ≤ fuel ->
  exists s', run os workers sink (schedule os workers sink fuel s) s = Some s'
             /\ is_Some (finished s').
Proof.
  intros Hpos. revert s. induction fuel as [|fuel IH]; intros s Hinv Hw.
  - exists s. split; [done|]. apply weight_0_finished. lia.
  - simpl. destruct (finished s) as [res|] eqn:Hfin.
    + exists s. split; [done|]. rewrite Hfin. eauto.
    + destruct (sched_step os roots workers sink s Hpos Hinv Hfin)
        as (a & s1 & -> & Hstep).
      rewrite Hstep. simpl. rewrite Hstep.
      apply IH; [by eapply step_inv|].
      apply step_weight in Hstep. lia.
Qed.

(** Every scan with at least one worker can run to its end. *)
Lemma scan_finishes (os : OS) (roots : list string) (workers : nat) (sink : errSink) :
  0 < workers ->
  exists acts s res,
    run os workers sink acts (init os roots workers) = Some s
    /\ finished s = Some res.
Proof.
  intros Hpos.
  destruct (schedule_finishes os roots workers sink
              (weight (init os roots workers)) (init os roots workers) Hpos
              (init_inv os roots workers) ltac:(lia)) as (s & Hrun & [res Hres]).
  eauto.
Qed.

Lemma elem_of_walk_paths (os : OS) (roots : list string) (r p : string) :
  r ∈ roots -> p ∈ (walk_root os r).1 -> p ∈ walk_paths os roots.
Proof. intros Hr Hp. unfold walk_paths. apply list_elem_of_bind. eauto. Qed.

Lemma elem_of_walk_errors (os : OS) (roots : list string) (r : string) (e : error) :
  r ∈ roots -> e ∈ leaves_opt (walk_root os r).2 -> e ∈ walk_errors os roots.
Proof. intros Hr Hp. unfold walk_errors. apply list_elem_of_bind. eauto. Qed.

(** C3.  The callback turns a permission error into nil and sends nothing,
    and returns any other error as it is.  Hence a directory that cannot be
    read for lack of permission is skipped and the walk goes on with the
    entries after it, while any other read error ends the walk of the root
    at that point: the entries after it are not visited, and the error is
    what the walk of the root returns.  In a scan that has run to its end
    the errors of all roots are joined in the walk error that is returned,
    and every path sent by the walk of any root has been probed, whatever
    happened to the other roots. *)
Theorem walk_error_policy (os : OS) :
  (forall path d e,
     walkFn path d (Some e)
     = ([], if errors_Is e ErrPermission then None else Some e))
  /\ (forall path name e read rest sent,
        errors_Is e ErrPermission = true ->
        walk_dir os (filepath_Join os path name) read = (sent, None) ->
        walk_dir os path ((name, NDir (Some e) read) :: rest)
        = (sent ++ (walk_dir os path rest).1, (walk_dir os path rest).2))
  /\ (forall path name e read rest,
        errors_Is e ErrPermission = false ->
        walk_dir os path ((name, NDir (Some e) read) :: rest) = ([], Some e))
  /\ (forall visit name d rest e,
        (visit name d).2 = Some e ->
        walk_entries visit ((name, d) :: rest) = visit name d)
  /\ (forall path entries e,
        (walk_dir os path entries).2 = Some e ->
        (walkDir os walkFn path (NDir None entries)).2 = Some e)
  /\ (forall root e,
        os_Lstat os root = inl e ->
        walk_root os root
        = ([], if errors_Is e ErrPermission then None else Some e))
  /\ (forall root d,
        os_Lstat os root = inr d -> only_permission_errors d = true ->
        walk_root os root = (regular_files os root d, None))
  /\ (forall roots workers sink acts s out walkErr,
        0 < workers ->
        run os workers sink acts (init os roots workers) = Some s ->
        finished s = Some (out, walkErr) ->
        leaves_opt walkErr ≡ₚ walk_errors os roots
        /\ (forall r e, r ∈ roots -> e ∈ leaves_opt (walk_root os r).2 ->
              e ∈ leaves_opt walkErr)
        /\ (forall r p, r ∈ roots -> p ∈ (walk_root os r).1 -> p ∈ st_probed s)).
Proof.
  split_and!.
  - intros. apply walkFn_error.
  - intros path name e read rest sent Hperm Hread. unfold walk_dir in *.
    by rewrite walk_entries_cons, walkDir_dir, Hperm, Hread.
  - intros path name e read rest Hperm. unfold walk_dir.
    by rewrite walk_entries_cons, walkDir_dir, Hperm.
  - intros visit name d rest e He. rewrite walk_entries_cons. by rewrite He.
  - intros path entries e He. by rewrite walkDir_dir.
  - intros root e He. unfold walk_root, WalkDir. rewrite He. apply walkFn_error.
  - intros root d Hd Hok. unfold walk_root, WalkDir. rewrite Hd.
    by apply walkDir_only_permission_errors.
  - intros roots workers sink acts s out walkErr Hpos Hrun Hfin.
    pose proof (run_inv _ _ _ _ _ _ _ (init_inv os roots workers) Hrun) as Hinv.
    destruct (finished_inv _ _ _ _ _ _ Hpos Hinv Hfin) as (Hp & _ & _ & He).
    split_and!; [done| |].
    + intros r e Hr Hin. rewrite He. eauto using elem_of_walk_errors.
    + intros r p Hr Hin. rewrite Hp. eauto using elem_of_walk_paths.
Qed.

Lemma walk_error_policy_witness :
  walk_root demo_os "/t" = (["/t/b.db"], Some (Wrap "open /t/c" (Sentinel (Errno 5))))
  /\ exists s out walkErr,
       run demo_os 2 Warn
         (schedule demo_os 2 Warn 40 (init demo_os ["/t"; "/r"] 2))
         (init demo_os ["/t"; "/r"] 2) = Some s
       /\ finished s = Some (out, walkErr)
       /\ Wrap "open /t/c" (Sentinel (Errno 5)) ∈ leaves_opt walkErr
       /\ "/r/good.db" ∈ st_probed s.
Proof.
  pose proof (walk_error_policy demo_os) as (_ & _ & _ & _ & _ & _ & _ & Hscan).
  split.
  - reflexivity.
  - eexists _, _, _.
    match goal with
    | |- ?A /\ ?B /\ _ =>
        assert A as Hrun by (vm_compute; reflexivity);
        assert B as Hfin by (vm_compute; reflexivity)
    end.
    destruct (Hscan ["/t"; "/r"] 2 Warn _ _ _ _ ltac:(lia) Hrun Hfin) as (_ & He & Hp).
    split_and!; [exact Hrun|exact Hfin| |].
    + apply (He "/t"); [set_solver|]. vm_compute. left.
    + apply (Hp "/r"); [set_solver|]. vm_compute. set_solver.
Defined.

Lemma worker_match_length (os : OS) (p : string) :
  length (worker_match (worker_probe os p)) ≤ 1.
Proof. destruct (worker_probe os p); simpl; lia. Qed.

Lemma probe_matches_length (os : OS) (ps : list string) :
  length (probe_matches os ps) ≤ length ps.
Proof.
  unfold probe_matches. induction ps as [|p ps IH]; [done|]. csimpl.
  rewrite length_app. pose proof (worker_match_length os p). lia.
Qed.

(** C2 (amended).  In a scan with at least one worker that has run to its
    end, the paths probed are, with multiplicity, the paths sent by the
    walks of the roots: every path sent is probed exactly once.  The walk of
    a root whose only read errors are permission errors sends every regular
    file that was listed, so each of them is probed.  A probe yields at most
    one MatchRecord, and the records collected are those of the probes. *)
Theorem scan_probes_sent_paths_once (os : OS) (roots : list string)
    (workers : nat) (sink : errSink) (acts : list action) (s : state)
    (res : list matchResult * option error) :
  0 < workers ->
  run os workers sink acts (init os roots workers) = Some s ->
  finished s = Some res ->
  st_probed s ≡ₚ walk_paths os roots
  /\ (forall r d, r ∈ roots -> os_Lstat os r = inr d ->
        only_permission_errors d = true ->
        (walk_root os r).1 = regular_files os r d
        /\ forall p, p ∈ regular_files os r d -> p ∈ st_probed s)
  /\ (forall p, length (worker_match (worker_probe os p)) ≤ 1)
  /\ res.1 ≡ₚ probe_matches os (st_probed s)
  /\ length res.1 ≤ length (st_probed s).
Proof.
  intros Hpos Hrun Hfin. destruct res as [out walkErr].
  pose proof (run_inv _ _ _ _ _ _ _ (init_inv os roots workers) Hrun) as Hinv.
  destruct (finished_inv _ _ _ _ _ _ Hpos Hinv Hfin) as (Hp & Hm & _ & _).
  split_and!; [done| |apply worker_match_length|done|].
  - intros r d Hr Hd Hok.
    assert (walk_root os r = (regular_files os r d, None)) as Hw.
    { unfold walk_root, WalkDir. rewrite Hd. by apply walkDir_only_permission_errors. }
    split; [by rewrite Hw|]. intros p Hin. rewrite Hp.
    apply (elem_of_walk_paths os roots r); [done|]. by rewrite Hw.
  - simpl. rewrite Hm. apply probe_matches_length.
Qed.

Lemma scan_probes_sent_paths_once_witness :
  exists s res,
    run demo_os 2 Discard
      (schedule demo_os 2 Discard 40 (init demo_os ["/r"] 2))
      (init demo_os ["/r"] 2) = Some s
    /\ finished s = Some res
    /\ st_probed s ≡ₚ walk_paths demo_os ["/r"]
    /\ "/r/sub/x.db" ∈ st_probed s
    /\ length res.1 ≤ length (st_probed s).
Proof.
  eexists _, _.
  match goal with
  | |- ?A /\ ?B /\ _ =>
      assert A as Hrun by (vm_compute; reflexivity);
      assert B as Hfin by (vm_compute; reflexivity)
  end.
  destruct (scan_probes_sent_paths_once demo_os ["/r"] 2 Discard _ _ _
              ltac:(lia) Hrun Hfin) as (Hp & Hreg & _ & _ & Hlen).
  split_and!; [exact Hrun|exact Hfin|exact Hp| |exact Hlen].
  destruct (Hreg "/r" demo_r) as [_ Hin]; [set_solver|reflexivity|reflexivity|].
  apply Hin. vm_compute. set_solver.
Defined.

(** C2 as stated fails: the resolved roots [/r] and [/r/sub] overlap, the
    regular file [/r/sub/x.db] is sent by both walks, probed twice, and
    yields two MatchRecords. *)
Lemma overlapping_roots_counterexample :
  resolveRoots demo_os ["/r"; "/r/sub"] = ["/r"; "/r/sub"]
  /\ exists s,
       run demo_os 2 Discard
         (schedule demo_os 2 Discard 40 (init demo_os ["/r"; "/r/sub"] 2))
         (init demo_os ["/r"; "/r/sub"] 2) = Some s
       /\ finished s
          = Some ([ {| Path := "/r/good.db"; Size := 31 |};
                    {| Path := "/r/sub/x.db"; Size := 16 |};
                    {| Path := "/r/sub/x.db"; Size := 16 |} ], None)
       /\ st_probed s
          = ["/r/bad.bin"; "/r/broken.db"; "/r/good.db"; "/r/locked.db";
             "/r/locked.txt"; "/r/sub/x.db"; "/r/sub/x.db"].
Proof.
  split; [vm_compute; reflexivity|].
  eexists. split_and!; vm_compute; reflexivity.
Qed.

Lemma step_work_recv (os : OS) (workers : nat) (sink : errSink) (j : nat)
    (s s' : state) (p : string) (rest : list string) :
  st_workers s !! j = Some WRecv ->
  st_paths s = p :: rest ->
  step os workers sink (AWork j) s = Some s' ->
  st_workers s' = <[j := worker_probe os p]> (st_workers s)
  /\ st_paths s' = rest
  /\ st_matches s' = st_matches s
  /\ st_errs s' = st_errs s.
Proof.
  destruct s. simpl. intros Hj -> Hstep. rewrite Hj in Hstep. by simplify_eq.
Qed.

Lemma step_work_send_err (os : OS) (workers : nat) (sink : errSink) (j : nat)
    (s s' : state) (e : error) :
  st_workers s !! j = Some (WSendErr e) ->
  step os workers sink (AWork j) s = Some s' ->
  st_workers s' = <[j := WRecv]> (st_workers s)
  /\ st_errs s' = st_errs s ++ [e]
  /\ st_matches s' = st_matches s.
Proof.
  destruct s. simpl. intros Hj Hstep. rewrite Hj in Hstep.
  case_decide; by simplify_eq.
Qed.

Lemma step_work_send_match (os : OS) (workers : nat) (sink : errSink) (j : nat)
    (s s' : state) (m : matchResult) :
  st_workers s !! j = Some (WSendMatch m) ->
  step os workers sink (AWork j) s = Some s' ->
  st_workers s' = <[j := WRecv]> (st_workers s)
  /\ st_matches s' = st_matches s ++ [m]
  /\ st_errs s' = st_errs s.
Proof.
  destruct s. simpl. intros Hj Hstep. rewrite Hj in Hstep.
  case_decide; by simplify_eq.
Qed.

(** C4.  For a path [p] handed to a worker: when the probe fails with a
    permission error the worker goes back to the receive and sends nothing;
    when it fails with another error the worker sends that error, wrapped
    with [p], on [errs] and nothing on [matches]; on a match it sends the
    one MatchRecord on [matches]; on a no-match it sends nothing.  The
    worker never leaves its loop because of a probe, and in a scan that has
    run to its end every path sent was probed, the records collected are
    those of the probes and the errors received from [errs] are the wrapped
    errors of the probes. *)
Theorem worker_probe_policy (os : OS) :
  (forall p,
     match checkSQLiteMagic os p with
     | (_, _, Some e) =>
         if errors_Is e ErrPermission then worker_probe os p = WRecv
         else worker_probe os p = WSendErr (Wrap p e)
     | (res, true, None) => worker_probe os p = WSendMatch res
     | (_, false, None) => worker_probe os p = WRecv
     end)
  /\ (forall p, worker_done (worker_probe os p) = false)
  /\ (forall workers sink j s s' p rest,
        st_workers s !! j = Some WRecv -> st_paths s = p :: rest ->
        step os workers sink (AWork j) s = Some s' ->
        st_workers s' = <[j := worker_probe os p]> (st_workers s)
        /\ st_paths s' = rest
        /\ st_matches s' = st_matches s /\ st_errs s' = st_errs s)
  /\ (forall workers sink j s s' e,
        st_workers s !! j = Some (WSendErr e) ->
        step os workers sink (AWork j) s = Some s' ->
        st_workers s' = <[j := WRecv]> (st_workers s)
        /\ st_errs s' = st_errs s ++ [e] /\ st_matches s' = st_matches s)
  /\ (forall workers sink j s s' m,
        st_workers s !! j = Some (WSendMatch m) ->
        step os workers sink (AWork j) s = Some s' ->
        st_workers s' = <[j := WRecv]> (st_workers s)
        /\ st_matches s' = st_matches s ++ [m] /\ st_errs s' = st_errs s)
  /\ (forall roots workers sink acts s res,
        0 < workers ->
        run os workers sink acts (init os roots workers) = Some s ->
        finished s = Some res ->
        st_probed s ≡ₚ walk_paths os roots
        /\ res.1 ≡ₚ probe_matches os (st_probed s)
        /\ st_warned s ++ st_dropped s ≡ₚ probe_errs os (st_probed s)).
Proof.
  split_and!.
  - intros p. unfold worker_probe.
    destruct (checkSQLiteMagic os p) as [[res ok] [e|]].
    + by destruct ok, (errors_Is e ErrPermission).
    + by destruct ok.
  - apply worker_probe_not_done.
  - intros. by eapply step_work_recv.
  - intros. by eapply step_work_send_err.
  - intros. by eapply step_work_send_match.
  - intros roots workers sink acts s [out walkErr] Hpos Hrun Hfin.
    pose proof (run_inv _ _ _ _ _ _ _ (init_inv os roots workers) Hrun) as Hinv.
    destruct (finished_inv _ _ _ _ _ _ Hpos Hinv Hfin) as (Hp & Hm & He & _).
    done.
Qed.

Lemma worker_probe_policy_witness :
  worker_probe demo_os "/r/locked.db" = WRecv
  /\ worker_probe demo_os "/r/broken.db"
     = WSendErr (Wrap "/r/broken.db" (Sentinel (Errno 5)))
  /\ worker_probe demo_os "/r/good.db"
     = WSendMatch {| Path := "/r/good.db"; Size := 31 |}
  /\ worker_probe demo_os "/r/bad.bin" = WRecv
  /\ exists s res,
       run demo_os 2 Warn
         (schedule demo_os 2 Warn 40 (init demo_os ["/r"] 2))
         (init demo_os ["/r"] 2) = Some s
       /\ finished s = Some res
       /\ st_probed s ≡ₚ walk_paths demo_os ["/r"]
       /\ st_warned s ++ st_dropped s ≡ₚ probe_errs demo_os (st_probed s).
Proof.
  pose proof (worker_probe_policy demo_os) as (Hprobe & _ & _ & _ & _ & Hscan).
  split_and!.
  - exact (Hprobe "/r/locked.db").
  - exact (Hprobe "/r/broken.db").
  - exact (Hprobe "/r/good.db").
  - exact (Hprobe "/r/bad.bin").
  - eexists _, _.
    match goal with
    | |- ?A /\ ?B /\ _ =>
        assert A as Hrun by (vm_compute; reflexivity);
        assert B as Hfin by (vm_compute; reflexivity)
    end.
    destruct (Hscan ["/r"] 2 Warn _ _ _ ltac:(lia) Hrun Hfin) as (Hp & _ & He).
    split_and!; [exact Hrun|exact Hfin|exact Hp|exact He].
Defined.

(** C6.  For every file system, list of roots and pool size [n >= 1],
    [findSQLiteFiles] returns both with one worker and with [n] workers,
    and whatever the schedules, the two lists of MatchRecords returned are
    permutations of each other. *)
Theorem matches_independent_of_workers (os : OS) (roots : list string) (n : nat) :
  0 < n ->
  (exists acts res, findSQLiteFiles_returns os roots 1 acts res)
  /\ (exists acts res, findSQLiteFiles_returns os roots n acts res)
  /\ (forall acts1 res1 actsn resn,
        findSQLiteFiles_returns os roots 1 acts1 res1 ->
        findSQLiteFiles_returns os roots n actsn resn ->
        res1.1 ≡ₚ resn.1
        /\ resn.1 ≡ₚ probe_matches os (walk_paths os roots)).
Proof.
  intros Hn. split_and!.
  - destruct (scan_finishes os roots 1 Discard ltac:(lia)) as (acts & s & res & ? & ?).
    exists acts, res, s. done.
  - destruct (scan_finishes os roots n Discard Hn) as (acts & s & res & ? & ?).
    exists acts, res, s. done.
  - intros acts1 [out1 e1] actsn [outn en] (s1 & Hrun1 & Hfin1) (sn & Hrunn & Hfinn).
    pose proof (run_inv _ _ _ _ _ _ _ (init_inv os roots 1) Hrun1) as Hinv1.
    pose proof (run_inv _ _ _ _ _ _ _ (init_inv os roots n) Hrunn) as Hinvn.
    destruct (finished_inv os roots 1 _ _ _ ltac:(lia) Hinv1 Hfin1) as (Hp1 & Hm1 & _ & _).
    destruct (finished_inv _ _ _ _ _ _ Hn Hinvn Hfinn) as (Hpn & Hmn & _ & _).
    simpl. unfold probe_matches in *. rewrite Hm1, Hmn, Hp1, Hpn. done.
Qed.

Lemma matches_independent_of_workers_witness :
  (exists acts res, findSQLiteFiles_returns demo_os ["/r"; "/t"] 1 acts res)
  /\ (exists acts res, findSQLiteFiles_returns demo_os ["/r"; "/t"] 3 acts res)
  /\ (forall acts1 res1 actsn resn,
        findSQLiteFiles_returns demo_os ["/r"; "/t"] 1 acts1 res1 ->
        findSQLiteFiles_returns demo_os ["/r"; "/t"] 3 actsn resn ->
        res1.1 ≡ₚ resn.1
        /\ resn.1 ≡ₚ probe_matches demo_os (walk_paths demo_os ["/r"; "/t"])).
Proof. apply (matches_independent_of_workers demo_os ["/r"; "/t"] 3). lia. Defined.

(** Two schedules of the same scan that return the records in different
    orders. *)
Example order_depends_on_schedule :
  findSQLiteFiles_returns demo_os ["/r"] 2
    (schedule demo_os 2 Discard 40 (init demo_os ["/r"] 2))
    ([ {| Path := "/r/good.db"; Size := 31 |};
       {| Path := "/r/sub/x.db"; Size := 16 |} ], None)
  /\ findSQLiteFiles_returns demo_os ["/r"] 2
       [AWalk 0; AWalk 0; AWalk 0; AWalk 0; AWalk 0; AWalk 0; AWalk 0;
        AClosePaths; AWork 0; AWork 0; AWork 1; AWork 0; AWork 0; AWork 0;
        AWork 0; AWork 0; AWork 1; AWork 0; AWork 1; AReturn;
        ACollect; AErrSink; ACollect]
       ([ {| Path := "/r/sub/x.db"; Size := 16 |};
          {| Path := "/r/good.db"; Size := 31 |} ], None).
Proof. split; eexists; split; vm_compute; reflexivity. Qed.

Lemma step_sink (os : OS) (workers : nat) (sink : errSink) (a : action)
    (s s' : state) :
  step os workers sink a s = Some s' ->
  match sink with
  | Discard => st_warned s' = st_warned s
  | Warn => st_dropped s' = st_dropped s
  end.
Proof.
  destruct s. destruct a, sink; simpl; intros Hstep;
    repeat case_match; by simplify_eq.
Qed.

Lemma run_sink (os : OS) (workers : nat) (sink : errSink) (acts : list action)
    (s s' : state) :
  run os workers sink acts s = Some s' ->
  match sink with
  | Discard => st_warned s' = st_warned s
  | Warn => st_dropped s' = st_dropped s
  end.
Proof.
  revert s. induction acts as [|a acts IH]; intros s Hrun; simpl in Hrun.
  - simplify_eq. by destruct sink.
  - destruct (step os workers sink a s) as [s1|] eqn:Hstep; [|done].
    apply step_sink in Hstep. apply IH in Hrun. destruct sink; congruence.
Qed.

(** C10.  Under any schedule, the scan run by [findSQLiteFiles] prints no
    warning; when it is over, what is returned is the list of collected
    MatchRecords and the walk error, while every probe error that is not a
    permission error has been received from [errs] and thrown away.  The
    scan run by [main] throws none away: when it is over, it has printed
    one warning for each of those errors. *)
Theorem findSQLiteFiles_discards_probe_errors (os : OS) (roots : list string)
    (workers : nat) (acts : list action) (s : state) :
  (run os workers Discard acts (init os roots workers) = Some s ->
     st_warned s = []
     /\ forall res, 0 < workers -> finished s = Some res ->
          res = (st_out s, res.2)
          /\ res.1 ≡ₚ probe_matches os (walk_paths os roots)
          /\ leaves_opt res.2 ≡ₚ walk_errors os roots
          /\ st_dropped s ≡ₚ probe_errs os (walk_paths os roots))
  /\ (run os workers Warn acts (init os roots workers) = Some s ->
        st_dropped s = []
        /\ forall res, 0 < workers -> finished s = Some res ->
             st_warned s ≡ₚ probe_errs os (walk_paths os roots)).
Proof.
  split; intros Hrun.
  - pose proof (run_sink _ _ _ _ _ _ Hrun) as Hw. simpl in Hw.
    split; [done|]. intros [out walkErr] Hpos Hfin.
    pose proof (run_inv _ _ _ _ _ _ _ (init_inv os roots workers) Hrun) as Hinv.
    destruct (finished_inv _ _ _ _ _ _ Hpos Hinv Hfin) as (Hp & Hm & He & Hwe).
    rewrite Hw in He. simpl in *. unfold probe_matches, probe_errs in *.
    rewrite <- Hp. split_and!; try done.
    unfold finished in Hfin. repeat case_match; by simplify_eq.
  - pose proof (run_sink _ _ _ _ _ _ Hrun) as Hd. simpl in Hd.
    split; [done|]. intros [out walkErr] Hpos Hfin.
    pose proof (run_inv _ _ _ _ _ _ _ (init_inv os roots workers) Hrun) as Hinv.
    destruct (finished_inv _ _ _ _ _ _ Hpos Hinv Hfin) as (Hp & Hm & He & Hwe).
    rewrite Hd, app_nil_r in He. unfold probe_errs in *. by rewrite <- Hp.
Qed.

Lemma findSQLiteFiles_discards_probe_errors_witness :
  exists s s',
    run demo_os 2 Discard
      (schedule demo_os 2 Discard 40 (init demo_os ["/r"] 2))
      (init demo_os ["/r"] 2) = Some s
    /\ run demo_os 2 Warn
         (schedule demo_os 2 Warn 40 (init demo_os ["/r"] 2))
         (init demo_os ["/r"] 2) = Some s'
    /\ finished s
       = Some ([ {| Path := "/r/good.db"; Size := 31 |};
                 {| Path := "/r/sub/x.db"; Size := 16 |} ], None)
    /\ st_warned s = []
    /\ st_dropped s = [Wrap "/r/broken.db" (Sentinel (Errno 5))]
    /\ st_dropped s ≡ₚ probe_errs demo_os (walk_paths demo_os ["/r"])
    /\ st_warned s' = [Wrap "/r/broken.db" (Sentinel (Errno 5))]
    /\ st_dropped s' = [].
Proof.
  eexists _, _.
  match goal with
  | |- ?A /\ ?B /\ ?C /\ _ =>
      assert A as Hrun by (vm_compute; reflexivity);
      assert B as Hrun' by (vm_compute; reflexivity);
      assert C as Hfin by (vm_compute; reflexivity)
  end.
  destruct (proj1 (findSQLiteFiles_discards_probe_errors demo_os ["/r"] 2 _ _) Hrun)
    as [Hw Hres].
  destruct (Hres _ ltac:(lia) Hfin) as (_ & _ & _ & Hdrop).
  destruct (proj2 (findSQLiteFiles_discards_probe_errors demo_os ["/r"] 2 _ _) Hrun')
    as [Hd' _].
  split_and!; [exact Hrun|exact Hrun'|exact Hfin|exact Hw|reflexivity|exact Hdrop
              |reflexivity|exact Hd'].
Defined.

(** ** Rendering *)

Lemma ascii_eqb_N (c d : ascii) :
  Ascii.eqb c d = (N_of_ascii c =? N_of_ascii d)%N.
Proof.
  destruct (Ascii.eqb_spec c d) as [->|Hne].
  - by rewrite N.eqb_refl.
  - symmetry. apply N.eqb_neq. intros Heq. apply Hne.
    by rewrite <- (ascii_N_embedding c), <- (ascii_N_embedding d), Heq.
Qed.

Lemma eqb_code (c d : ascii) (n : N) :
  N_of_ascii d = n -> Ascii.eqb c d = (N_of_ascii c =? n)%N.
Proof. intros <-. apply ascii_eqb_N. Qed.

Lemma append_nil (s : string) : "" +:+ s = s.
Proof. reflexivity. Qed.

Lemma append_cons (c : ascii) (a b : string) :
  String c a +:+ b = String c (a +:+ b).
Proof. reflexivity. Qed.

Lemma append_assoc' (a b c : string) : (a +:+ b) +:+ c = a +:+ (b +:+ c).
Proof.
  induction a as [|x a IH]; [done|]. by rewrite !append_cons, IH.
Qed.

Lemma no_newline_app (a b : string) :
  no_newline (a +:+ b) = no_newline a && no_newline b.
Proof.
  induction a as [|x a IH]; [done|].
  rewrite append_cons. simpl. by rewrite IH, andb_assoc.
Qed.

Lemma piece_nil : piece "".
Proof.
  split; [done|]. intros rest. rewrite append_nil.
  by destruct (lex_string rest) as [[]|].
Qed.

Lemma piece_app (p q : string) : piece p -> piece q -> piece (p +:+ q).
Proof.
  intros [Hp1 Hp2] [Hq1 Hq2]. split.
  - by rewrite no_newline_app, Hp1, Hq1.
  - intros rest. rewrite append_assoc', Hp2, Hq2.
    destruct (lex_string rest) as [[raw r]|]; [|done].
    unfold prepend. simpl. by rewrite append_assoc'.
Qed.

(** A character that is neither a quote, a backslash nor a control
    character stands for itself. *)
Lemma piece_char (c : ascii) :
  (32 <= N_of_ascii c)%N -> N_of_ascii c <> 34%N -> N_of_ascii c <> 92%N ->
  piece (String c "").
Proof.
  intros H32 H34 H92. split.
  - simpl. rewrite (eqb_code c nl 10 eq_refl).
    destruct (N.eqb_spec (N_of_ascii c) 10); [lia|done].
  - intros rest. rewrite append_cons, append_nil. simpl.
    rewrite (eqb_code c dq 34 eq_refl), (eqb_code c bslash 92 eq_refl).
    destruct (N.eqb_spec (N_of_ascii c) 34); [done|].
    destruct (N.eqb_spec (N_of_ascii c) 92); [done|].
    destruct (N.leb_spec 32 (N_of_ascii c)); [done|lia].
Qed.

Lemma is_hex_hex (n : N) : is_hex (hex n) = true.
Proof. unfold hex. repeat case_match; reflexivity. Qed.

Lemma lex_string_escape (e : ascii) (rest : string) :
  is_escape e = true ->
  lex_string (String bslash (String e rest))
  = prepend (String bslash (String e "")) <$> lex_string rest.
Proof.
  intros He. unfold bslash, dq. simpl.
  destruct (Ascii.eqb_spec e "u") as [->|_]; [done|]. by rewrite He.
Qed.

Lemma lex_string_u (h1 h2 h3 h4 : ascii) (rest : string) :
  is_hex h1 = true -> is_hex h2 = true -> is_hex h3 = true -> is_hex h4 = true ->
  lex_string (String bslash (String "u" (String h1 (String h2 (String h3 (String h4 rest))))))
  = prepend (String bslash (String "u" (String h1 (String h2 (String h3 (String h4 "")))))) 
      <$> lex_string rest.
Proof. intros H1 H2 H3 H4. unfold bslash, dq. simpl. by rewrite H1, H2, H3, H4. Qed.

Lemma hex_not_nl (n : N) : Ascii.eqb (hex n) nl = false.
Proof. unfold hex. repeat case_match; reflexivity. Qed.

Lemma piece_u (h1 h2 h3 h4 : ascii) :
  is_hex h1 = true -> is_hex h2 = true -> is_hex h3 = true -> is_hex h4 = true ->
  Ascii.eqb h1 nl = false -> Ascii.eqb h2 nl = false ->
  Ascii.eqb h3 nl = false -> Ascii.eqb h4 nl = false ->
  piece (String bslash (String "u" (String h1 (String h2 (String h3 (String h4 "")))))).
Proof.
  intros H1 H2 H3 H4 N1 N2 N3 N4. split.
  - simpl. by rewrite N1, N2, N3, N4.
  - intros rest. rewrite !append_cons, append_nil. by apply lex_string_u.
Qed.

Lemma piece_escape (e : ascii) :
  is_escape e = true -> piece (String bslash (String e "")).
Proof.
  intros He. split.
  - simpl. rewrite (eqb_code e nl 10 eq_refl).
    destruct (N.eqb_spec (N_of_ascii e) 10) as [Heq|]; [|done].
    unfold is_escape in He. rewrite Heq in He. done.
  - intros rest. rewrite !append_cons, append_nil. by apply lex_string_escape.
Qed.

(** Every escape written by [encoding/json] is an escape of the grammar. *)
Lemma piece_escape_ascii (b : N) : piece (escape_ascii b).
Proof.
  unfold escape_ascii.
  destruct (N.eqb_spec b 92) as [->|_]; [by apply piece_escape|].
  destruct (N.eqb_spec b 34) as [->|_]; [by apply piece_escape|]. simpl.
  destruct (b =? 8)%N; [by apply piece_escape|].
  destruct (b =? 12)%N; [by apply piece_escape|].
  destruct (b =? 10)%N; [by apply piece_escape|].
  destruct (b =? 13)%N; [by apply piece_escape|].
  destruct (b =? 9)%N; [by apply piece_escape|].
  apply piece_u; auto using is_hex_hex, hex_not_nl.
Qed.

Lemma piece_high (c : ascii) : (128 <= N_of_ascii c)%N -> piece (String c "").
Proof. intros H. apply piece_char; lia. Qed.

Lemma piece_safe (c : ascii) : htmlSafe (N_of_ascii c) = true -> piece (String c "").
Proof.
  unfold htmlSafe. intros H.
  apply andb_true_iff in H as [[H32 _]%andb_true_iff Hn].
  apply negb_true_iff in Hn.
  repeat (apply orb_false_iff in Hn as [Hn ?]).
  apply piece_char; [by apply N.leb_le|by apply N.eqb_neq|by apply N.eqb_neq].
Qed.

Lemma decode_rune_high (b : N) (rest : string) (r : N) (size : nat) :
  decode_rune b rest = Some (r, size) -> high_prefix (size - 1) rest.
Proof.
  unfold decode_rune, continuation. intros H.
  repeat case_match; simplify_eq; simpl;
    repeat match goal with
           | H : _ && _ = true |- _ => apply andb_true_iff in H as [? ?]
           | H : (_ <=? _)%N = true |- _ => apply N.leb_le in H
           end;
    repeat split; lia.
Qed.

(** What [appendString] writes between the quotes is read back, as it is,
    as the content of a JSON string. *)
Lemma appendString_loop_piece (src : string) (skip : nat) (copy : bool) :
  (copy = true -> high_prefix skip src) ->
  piece (appendString_loop skip copy src).
Proof.
  revert skip copy. induction src as [|c rest IH]; intros skip copy Hhigh.
  { apply piece_nil. }
  destruct skip as [|k]; simpl.
  - destruct (N_of_ascii c <? 128)%N eqn:Hlt.
    + destruct (htmlSafe (N_of_ascii c)) eqn:Hsafe.
      * apply (piece_app (String c "")); [by apply piece_safe|by apply IH].
      * apply piece_app; [apply piece_escape_ascii|by apply IH].
    + apply N.ltb_ge in Hlt.
      destruct (decode_rune (N_of_ascii c) rest) as [[r size]|] eqn:Hdec.
      * destruct ((r =? 8232)%N || (r =? 8233)%N).
        -- rewrite <- append_assoc'. apply piece_app; [|by apply IH].
           change (piece (String bslash (String "u" (String "2" (String "0"
                     (String "2" (String (hex (N.land r 15)) ""))))))).
           apply piece_u; auto using is_hex_hex, hex_not_nl.
        -- apply (piece_app (String c "")); [by apply piece_high|].
           apply IH. intros _. by eapply decode_rune_high.
      * apply piece_app; [|by apply IH]. by apply piece_u.
  - destruct copy.
    + destruct (Hhigh eq_refl) as [Hc Hrest].
      apply (piece_app (String c "")); [by apply piece_high|]. by apply IH.
    + by apply IH.
Qed.

Lemma marshalString_lex (v rest : string) :
  marshalString v +:+ rest
  = String dq (appendString_loop 0 true v +:+ String dq rest)
  /\ lex_string (appendString_loop 0 true v +:+ String dq rest)
     = Some (appendString_loop 0 true v, rest)
  /\ no_newline (marshalString v) = true.
Proof.
  destruct (appendString_loop_piece v 0 true) as [Hnl Hlex]; [done|].
  split_and!.
  - unfold marshalString. by rewrite append_cons, append_assoc', append_cons, append_nil.
  - rewrite Hlex. unfold dq at 1. simpl. unfold prepend. simpl.
    f_equal. f_equal. clear. induction (appendString_loop 0 true v) as [|x a IH]; [done|].
    by rewrite append_cons, IH.
  - unfold marshalString. simpl. by rewrite no_newline_app, Hnl.
Qed.

Lemma nzhead_not_D0 (d d' : Decimal.uint) : Decimal.nzhead d <> Decimal.D0 d'.
Proof. induction d; simpl; congruence. Qed.

Lemma to_uint_head (p : positive) :
  Pos.to_uint p <> Decimal.Nil /\ forall d, Pos.to_uint p <> Decimal.D0 d.
Proof.
  split; [apply DecimalPos.Unsigned.to_uint_nonnil|]. intros d Hd.
  pose proof (DecimalPos.Unsigned.to_of (Pos.to_uint p)) as Hn.
  rewrite DecimalPos.Unsigned.of_to in Hn. simpl in Hn. rewrite Hd in Hn.
  unfold Decimal.unorm in Hn. simpl in Hn.
  destruct (Decimal.nzhead d) as [|d0|d0|d0|d0|d0|d0|d0|d0|d0|d0] eqn:Hz;
    try discriminate.
  - injection Hn as ->. by apply (DecimalPos.Unsigned.to_uint_nonzero p).
  - by apply (nzhead_not_D0 d d0).
Qed.

Lemma lex_digits_uint (d : Decimal.uint) (rest : string) :
  no_digit_head rest = true ->
  lex_digits (NilEmpty.string_of_uint d +:+ rest)
  = (NilEmpty.string_of_uint d, rest)
  /\ no_newline (NilEmpty.string_of_uint d) = true.
Proof.
  intros Hrest. induction d as [|d [IH IHnl]|d [IH IHnl]|d [IH IHnl]|d [IH IHnl]
    |d [IH IHnl]|d [IH IHnl]|d [IH IHnl]|d [IH IHnl]|d [IH IHnl]|d [IH IHnl]];
    simpl NilEmpty.string_of_uint;
    [|split; [rewrite append_cons; simpl; by rewrite IH|by simpl; rewrite IHnl]..].
  split; [|done]. rewrite append_nil. destruct rest as [|c rest]; [done|].
  simpl in *. by destruct (is_digit c).
Qed.

Lemma lex_unsigned_uint (d : Decimal.uint) (rest : string) :
  no_digit_head rest = true ->
  d <> Decimal.Nil -> (forall d', d <> Decimal.D0 d') ->
  lex_unsigned (NilEmpty.string_of_uint d +:+ rest)
  = Some (NilEmpty.string_of_uint d, rest).
Proof.
  intros Hrest Hnil Hzero.
  destruct d as [|d|d|d|d|d|d|d|d|d|d]; [done|by destruct (Hzero d)|..];
    simpl NilEmpty.string_of_uint; rewrite append_cons; simpl;
    by rewrite (proj1 (lex_digits_uint d rest Hrest)).
Qed.

(** A number written with [%d] is read back as an integer of the JSON
    grammar, and holds no line feed. *)
Lemma Sprintf_d_lex (n : Z) (rest : string) :
  no_digit_head rest = true ->
  lex_number (Sprintf_d n +:+ rest) = Some (Sprintf_d n, rest)
  /\ no_newline (Sprintf_d n) = true.
Proof.
  intros Hrest. unfold Sprintf_d. destruct n as [|p|p]; simpl Z.to_int.
  - split; [|done]. simpl. rewrite append_nil.
    destruct rest as [|c rest]; [done|]. simpl in Hrest.
    by destruct (is_digit c).
  - destruct (to_uint_head p) as [Hnil Hzero].
    assert (NilZero.string_of_int (Decimal.Pos (Pos.to_uint p))
            = NilEmpty.string_of_uint (Pos.to_uint p)) as ->.
    { simpl. unfold NilZero.string_of_uint. by destruct (Pos.to_uint p). }
    split; [|apply (lex_digits_uint _ rest Hrest)].
    unfold lex_number.
    pose proof (lex_unsigned_uint _ rest Hrest Hnil Hzero) as Hlex.
    destruct (NilEmpty.string_of_uint (Pos.to_uint p)) as [|c s] eqn:Hs.
    { rewrite append_nil in *. destruct (Pos.to_uint p); simplify_eq/=. }
    rewrite append_cons in *.
    assert (Ascii.eqb c "-" = false) as ->; [|done].
    destruct (Pos.to_uint p); simplify_eq/=; done.
  - destruct (to_uint_head p) as [Hnil Hzero].
    assert (NilZero.string_of_int (Decimal.Neg (Pos.to_uint p))
            = String "-" (NilEmpty.string_of_uint (Pos.to_uint p))) as ->.
    { simpl. unfold NilZero.string_of_uint. by destruct (Pos.to_uint p). }
    split.
    + rewrite append_cons. simpl.
      by rewrite (lex_unsigned_uint _ rest Hrest Hnil Hzero).
    + simpl. apply (lex_digits_uint _ rest Hrest).
Qed.


Lemma skip_ws_app (w s : string) : all_ws w = true -> skip_ws (w +:+ s) = skip_ws s.
Proof.
  induction w as [|c w IH]; [done|]. simpl. intros [Hc Hw]%andb_true_iff.
  rewrite ?append_cons. simpl. rewrite Hc. by apply IH.
Qed.

Lemma no_digit_head_ws (w : string) (c : ascii) (rest : string) :
  all_ws w = true -> is_digit c = false ->
  no_digit_head (w +:+ String c rest) = true.
Proof.
  destruct w as [|x w]; simpl.
  - intros _ Hc. rewrite ?append_nil. simpl. by rewrite Hc.
  - intros [Hx _]%andb_true_iff _. rewrite ?append_cons. simpl.
    unfold is_ws, is_digit in *.
    repeat (apply orb_true_iff in Hx as [Hx|Hx]); apply N.eqb_eq in Hx;
      rewrite Hx; done.
Qed.

(** A value that is a string written by [marshalString]. *)
Lemma parse_value_string (fuel : nat) (w p rest : string) :
  all_ws w = true ->
  parse_value (S fuel) (w +:+ marshalString p +:+ rest)
  = Some (JString (appendString_loop 0 true p), rest).
Proof.
  intros Hw. destruct (marshalString_lex p rest) as (Heq & Hlex & _).
  simpl. rewrite skip_ws_app, Heq by done. unfold dq in *. simpl.
  by rewrite Hlex.
Qed.

Lemma Sprintf_d_head (n : Z) :
  exists c s, Sprintf_d n = String c s
    /\ (48 <= N_of_ascii c <= 57 \/ N_of_ascii c = 45)%N.
Proof.
  unfold Sprintf_d. destruct n as [|p|p]; simpl.
  - exists "0"%char, "". split; [done|]. left. simpl. lia.
  - destruct (to_uint_head p) as [Hnil _]. unfold NilZero.string_of_uint.
    destruct (Pos.to_uint p); [done|..]; simpl; eexists _, _;
      (split; [reflexivity|]); left; simpl; lia.
  - eexists _, _. split; [reflexivity|]. right. done.
Qed.

Lemma strip_prefix_head (a c : ascii) (p s : string) :
  Ascii.eqb c a = false -> strip_prefix (String a p) (String c s) = None.
Proof. intros H. simpl. by rewrite Ascii.eqb_sym, H. Qed.

#[local] Arguments strip_prefix : simpl never.
#[local] Arguments lex_number : simpl never.

(** A value that is a number written with [%d]. *)
Lemma parse_value_number (fuel : nat) (w rest : string) (n : Z) :
  all_ws w = true -> no_digit_head rest = true ->
  parse_value (S fuel) (w +:+ Sprintf_d n +:+ rest)
  = Some (JNumber (Sprintf_d n), rest).
Proof.
  intros Hw Hrest. destruct (Sprintf_d_lex n rest Hrest) as [Hlex _].
  destruct (Sprintf_d_head n) as (c & s & Hs & Hc).
  simpl. rewrite skip_ws_app by done. rewrite Hs in *. rewrite append_cons in *.
  assert (is_ws c = false) as Hws.
  { unfold is_ws. destruct Hc as [Hc|Hc].
    - repeat (apply orb_false_iff; split); apply N.eqb_neq; lia.
    - by rewrite Hc. }
  assert (forall d k, N_of_ascii d = k -> N_of_ascii c <> k -> Ascii.eqb c d = false)
    as Hne.
  { intros d k Hd Hk. rewrite (eqb_code c d k Hd). by apply N.eqb_neq. }
  simpl. rewrite Hws.
  rewrite (Hne "{"%char 123%N), (Hne "["%char 91%N), (Hne dq 34%N) by (done || lia).
  rewrite (strip_prefix_head "t" c) by (apply (Hne _ 116%N); [done|lia]).
  rewrite (strip_prefix_head "f" c) by (apply (Hne _ 102%N); [done|lia]).
  rewrite (strip_prefix_head "n" c) by (apply (Hne _ 110%N); [done|lia]).
  by rewrite Hlex.
Qed.

#[local] Arguments lex_string : simpl never.

Lemma append_nil_r (s : string) : s +:+ "" = s.
Proof. induction s as [|x s IH]; [done|]. by rewrite append_cons, IH. Qed.

Lemma lex_string_key (k rest : string) :
  piece k -> lex_string (k +:+ String dq rest) = Some (k, rest).
Proof.
  intros [_ Hk]. rewrite Hk. unfold lex_string, dq. simpl.
  unfold prepend. simpl. by rewrite append_nil_r.
Qed.

Lemma piece_plain (k : string) :
  forallb (fun c => (32 <=? N_of_ascii c)%N && negb (N_of_ascii c =? 34)%N
                    && negb (N_of_ascii c =? 92)%N)
          (list_ascii_of_string k) = true ->
  piece k.
Proof.
  induction k as [|c k IH]; simpl; [intros _; apply piece_nil|].
  intros [[[H32 H34]%andb_true_iff H92]%andb_true_iff Hk]%andb_true_iff.
  apply (piece_app (String c "")); [|by apply IH].
  apply negb_true_iff in H34, H92.
  apply piece_char; [by apply N.leb_le|by apply N.eqb_neq|by apply N.eqb_neq].
Qed.

(** An object opens: after the brace comes a member. *)
Lemma parse_value_object (fuel : nat) (w w' r : string) :
  all_ws w = true -> all_ws w' = true ->
  parse_value (S fuel) (w +:+ String "{" (w' +:+ String dq r))
  = (fun r => (JObject r.1, r.2)) <$> parse_members fuel (w' +:+ String dq r).
Proof.
  intros Hw Hw'. simpl. rewrite skip_ws_app by done. simpl.
  rewrite skip_ws_app by done. unfold dq. simpl. done.
Qed.

(** A member [k: v], followed by a comma and more members or by the
    closing brace. *)
Lemma parse_members_step (fuel : nat) (w k w1 r2 r3 : string) (v : json) :
  all_ws w = true -> all_ws w1 = true -> piece k ->
  parse_value fuel r2 = Some (v, r3) ->
  parse_members (S fuel) (w +:+ String dq (k +:+ String dq (w1 +:+ String ":" r2)))
  = match skip_ws r3 with
    | String c3 r4 =>
        if Ascii.eqb c3 ","
        then (fun r => ((k, v) :: r.1, r.2)) <$> parse_members fuel r4
        else if Ascii.eqb c3 "}" then Some ([(k, v)], r4) else None
    | EmptyString => None
    end.
Proof.
  intros Hw Hw1 Hk Hv. simpl. rewrite skip_ws_app by done.
  unfold dq at 1. simpl. rewrite (lex_string_key k _ Hk).
  rewrite skip_ws_app by done. simpl. by rewrite Hv.
Qed.

(** Leading white space is skipped. *)
Lemma parse_value_ws (fuel : nat) (w s : string) :
  all_ws w = true -> parse_value fuel (w +:+ s) = parse_value fuel s.
Proof.
  intros Hw. destruct fuel as [|fuel]; [done|]. simpl.
  by rewrite skip_ws_app.
Qed.

Lemma parse_items_ws (fuel : nat) (w s : string) :
  all_ws w = true -> parse_items fuel (w +:+ s) = parse_items fuel s.
Proof.
  intros Hw. destruct fuel as [|fuel]; [done|]. simpl.
  by rewrite parse_value_ws.
Qed.

(** An array opens: after the bracket comes an item. *)
Lemma parse_value_array (fuel : nat) (r : string) (c : ascii) (r' : string) :
  skip_ws r = String c r' -> Ascii.eqb c "]" = false ->
  parse_value (S fuel) (String "[" r)
  = (fun r => (JArray r.1, r.2)) <$> parse_items fuel r.
Proof. intros Hr Hc. simpl. by rewrite Hr, Hc. Qed.

Lemma parse_value_array_empty (fuel : nat) (w r : string) :
  all_ws w = true ->
  parse_value (S fuel) (String "[" (w +:+ String "]" r)) = Some (JArray [], r).
Proof. intros Hw. simpl. rewrite skip_ws_app by done. simpl. done. Qed.

(** An item, followed by a comma and more items or by the closing
    bracket. *)
Lemma parse_items_step (fuel : nat) (s r1 : string) (v : json) :
  parse_value fuel s = Some (v, r1) ->
  parse_items (S fuel) s
  = match skip_ws r1 with
    | String c r2 =>
        if Ascii.eqb c ","
        then (fun r => (v :: r.1, r.2)) <$> parse_items fuel r2
        else if Ascii.eqb c "]" then Some ([v], r2) else None
    | EmptyString => None
    end.
Proof. intros Hv. simpl. by rewrite Hv. Qed.

#[local] Arguments parse_value : simpl never.
#[local] Arguments parse_members : simpl never.
#[local] Arguments parse_items : simpl never.

(** The object with the field [path]. *)
Lemma parse_object_path (fuel : nat) (w0 w1 wk wv w3 p rest : string) :
  all_ws w0 = true -> all_ws w1 = true -> all_ws wk = true ->
  all_ws wv = true -> all_ws w3 = true ->
  parse_value (S (S (S fuel)))
    (w0 +:+ String "{" (w1 +:+ String dq ("path" +:+ String dq (wk +:+ String ":"
       (wv +:+ marshalString p +:+ (w3 +:+ String "}" rest))))))
  = Some (JObject [("path", JString (appendString_loop 0 true p))], rest).
Proof.
  intros H0 H1 Hk Hv H3. rewrite parse_value_object by done.
  rewrite (parse_members_step _ _ _ _ _ _ _ H1 Hk (piece_plain "path" eq_refl)
             (parse_value_string _ _ _ _ Hv)).
  rewrite skip_ws_app by done. simpl. done.
Qed.

(** The object with the fields [path] and [size]. *)
Lemma parse_object_path_size (fuel : nat) (w0 w1 wk wv w3 w4 wk' wv' w5 p rest : string)
    (n : Z) :
  all_ws w0 = true -> all_ws w1 = true -> all_ws wk = true ->
  all_ws wv = true -> all_ws w3 = true -> all_ws w4 = true ->
  all_ws wk' = true -> all_ws wv' = true -> all_ws w5 = true ->
  parse_value (S (S (S (S fuel))))
    (w0 +:+ String "{" (w1 +:+ String dq ("path" +:+ String dq (wk +:+ String ":"
       (wv +:+ marshalString p +:+ (w3 +:+ String ","
         (w4 +:+ String dq ("size" +:+ String dq (wk' +:+ String ":"
            (wv' +:+ Sprintf_d n +:+ (w5 +:+ String "}" rest)))))))))))
  = Some (JObject [("path", JString (appendString_loop 0 true p));
                   ("size", JNumber (Sprintf_d n))], rest).
Proof.
  intros H0 H1 Hk Hv H3 H4 Hk' Hv' H5. rewrite parse_value_object by done.
  rewrite (parse_members_step _ _ _ _ _ _ _ H1 Hk (piece_plain "path" eq_refl)
             (parse_value_string _ _ _ _ Hv)).
  rewrite skip_ws_app by done. simpl.
  rewrite (parse_members_step _ _ _ _ _ _ _ H4 Hk' (piece_plain "size" eq_refl)
             (parse_value_number _ _ _ _ Hv' (no_digit_head_ws w5 "}" rest H5 eq_refl))).
  rewrite skip_ws_app by done. simpl. done.
Qed.

Lemma parse_json_of_value (s : string) (v : json) (a b c : ascii) (x : string) :
  s = String a (String b (String c x)) ->
  (forall fuel, parse_value (S (S (S (S fuel)))) s = Some (v, "")) ->
  parse_json s = Some v.
Proof.
  intros Hs Hv. unfold parse_json. rewrite Hs at 1. simpl String.length.
  by rewrite Hv.
Qed.

Lemma all_ws_nl_indent (w : string) : all_ws w = true -> all_ws (String nl w) = true.
Proof. intros H. simpl. by rewrite H. Qed.

Lemma formatJSONLine_parse (os : OS) (m : matchResult) (showSize : bool) :
  parse_json (formatJSONLine os m showSize) = Some (match_object os m showSize).
Proof.
  unfold formatJSONLine, match_object. generalize (formatPath os (Path m)) as p.
  intros p. destruct showSize.
  - eapply (parse_json_of_value _ _ "{" dq "p"); [reflexivity|]. intros fuel.
    exact (parse_object_path_size fuel "" "" "" " " "" " " "" " " "" p "" (Size m)
             eq_refl eq_refl eq_refl eq_refl eq_refl eq_refl eq_refl eq_refl eq_refl).
  - eapply (parse_json_of_value _ _ "{" dq "p"); [reflexivity|]. intros fuel.
    exact (parse_object_path (S fuel) "" "" "" " " "" p ""
             eq_refl eq_refl eq_refl eq_refl eq_refl).
Qed.

Lemma formatJSONEntry_parse_value (os : OS) (m : matchResult) (showSize : bool)
    (fuel : nat) (rest : string) :
  parse_value (S (S (S (S fuel)))) (formatJSONEntry os m showSize +:+ rest)
  = Some (match_object os m showSize, rest).
Proof.
  unfold formatJSONEntry, match_object. generalize (formatPath os (Path m)) as p.
  intros p. destruct showSize.
  - repeat rewrite ?append_cons, ?append_nil, ?append_assoc'.
    exact (parse_object_path_size fuel "    " (String nl "      ") "" " " ""
             (String nl "      ") "" " " (String nl "    ") p rest (Size m)
             eq_refl eq_refl eq_refl eq_refl eq_refl eq_refl eq_refl eq_refl eq_refl).
  - repeat rewrite ?append_cons, ?append_nil, ?append_assoc'.
    exact (parse_object_path (S fuel) "    " (String nl "      ") "" " "
             (String nl "    ") p rest eq_refl eq_refl eq_refl eq_refl eq_refl).
Qed.

Lemma formatJSONEntry_parse (os : OS) (m : matchResult) (showSize : bool) :
  parse_json (formatJSONEntry os m showSize) = Some (match_object os m showSize).
Proof.
  destruct showSize;
    (eapply (parse_json_of_value _ _ " " " " " ");
     [unfold formatJSONEntry; reflexivity|]);
    intros fuel;
    match goal with
    | |- parse_value _ ?s = _ => rewrite <- (append_nil_r s)
    end; apply formatJSONEntry_parse_value.
Qed.

(** C8.  In both JSON modes the text rendered for a MatchRecord parses as a
    JSON object; the object always has the field [path], and it has the
    field [size] exactly when sizes are asked for. *)
Theorem rendered_json_fields (os : OS) (m : matchResult) (showSize : bool) :
  parse_json (formatJSONLine os m showSize) = Some (match_object os m showSize)
  /\ parse_json (formatJSONEntry os m showSize) = Some (match_object os m showSize)
  /\ "path" ∈ fields (match_object os m showSize)
  /\ ("size" ∈ fields (match_object os m showSize) <-> showSize = true)
  /\ (forall k, k ∈ fields (match_object os m showSize) -> k = "path" \/ k = "size").
Proof.
  split_and!.
  - apply formatJSONLine_parse.
  - apply formatJSONEntry_parse.
  - simpl. set_solver.
  - destruct showSize; simpl; [set_solver|].
    split; [|done]. intros [H|H]%elem_of_cons; [done|]. by apply elem_of_nil in H.
  - intros k. destruct showSize; simpl; set_solver.
Qed.

(** C9 (amended).  In every output mode the path that is rendered is the
    result of [filepath.Abs] on the recorded path whenever [filepath.Abs]
    succeeds, whether the recorded path is absolute or not; when
    [filepath.Abs] fails, the recorded path is rendered as it is. *)
Theorem rendered_path (os : OS) (m : matchResult) (showSize : bool) :
  (forall ap, filepath_Abs os (Path m) = inr ap ->
     formatPath os (Path m) = ap
     /\ formatPlainMatch os m false = ap
     /\ formatPlainMatch os m true = ap +:+ " (" +:+ Sprintf_d (Size m) +:+ " bytes)"
     /\ formatJSONLine os m false = "{" +:+ key "path" +:+ ": " +:+ marshalString ap +:+ "}"
     /\ (exists members,
           parse_json (formatJSONLine os m showSize)
           = Some (JObject (("path", JString (appendString_loop 0 true ap)) :: members)))
     /\ (exists members,
           parse_json (formatJSONEntry os m showSize)
           = Some (JObject (("path", JString (appendString_loop 0 true ap)) :: members))))
  /\ (forall e, filepath_Abs os (Path m) = inl e ->
        formatPath os (Path m) = Path m
        /\ formatPlainMatch os m false = Path m
        /\ formatPlainMatch os m true
           = Path m +:+ " (" +:+ Sprintf_d (Size m) +:+ " bytes)"
        /\ formatJSONLine os m false
           = "{" +:+ key "path" +:+ ": " +:+ marshalString (Path m) +:+ "}"
        /\ (exists members,
              parse_json (formatJSONLine os m showSize)
              = Some (JObject (("path", JString (appendString_loop 0 true (Path m)))
                               :: members)))
        /\ (exists members,
              parse_json (formatJSONEntry os m showSize)
              = Some (JObject (("path", JString (appendString_loop 0 true (Path m)))
                               :: members)))).
Proof.
  pose proof (formatJSONLine_parse os m showSize) as Hline.
  pose proof (formatJSONEntry_parse os m showSize) as Hentry.
  unfold match_object in *.
  assert (forall p, formatPath os (Path m) = p ->
    formatPath os (Path m) = p
    /\ formatPlainMatch os m false = p
    /\ formatPlainMatch os m true = p +:+ " (" +:+ Sprintf_d (Size m) +:+ " bytes)"
    /\ formatJSONLine os m false = "{" +:+ key "path" +:+ ": " +:+ marshalString p +:+ "}"
    /\ (exists members,
          parse_json (formatJSONLine os m showSize)
          = Some (JObject (("path", JString (appendString_loop 0 true p)) :: members)))
    /\ (exists members,
          parse_json (formatJSONEntry os m showSize)
          = Some (JObject (("path", JString (appendString_loop 0 true p)) :: members))))
    as Hall.
  { intros p Hp. rewrite Hp in Hline, Hentry. split_and!; [done| | | |by eauto|by eauto].
    - unfold formatPlainMatch. by rewrite Hp.
    - unfold formatPlainMatch. by rewrite Hp.
    - unfold formatJSONLine. by rewrite Hp. }
  split.
  - intros ap Hap. apply Hall. unfold formatPath. by rewrite Hap.
  - intros e He. apply Hall. unfold formatPath. by rewrite He.
Qed.

Lemma rendered_path_witness :
  formatPlainMatch demo_os {| Path := "/r/good.db"; Size := 31 |} true
  = "/r/good.db (31 bytes)"
  /\ formatPlainMatch demo_os {| Path := "a.db"; Size := 31 |} true
     = "a.db (31 bytes)".
Proof.
  split.
  - destruct (rendered_path demo_os {| Path := "/r/good.db"; Size := 31 |} true)
      as [Habs _].
    destruct (Habs "/r/good.db" eq_refl) as (_ & _ & H & _). exact H.
  - destruct (rendered_path demo_os {| Path := "a.db"; Size := 31 |} true)
      as [_ Hrel].
    destruct (Hrel _ eq_refl) as (_ & _ & H & _). exact H.
Defined.

(** C9 as stated fails: when the working directory cannot be determined,
    [filepath.Abs] fails on a relative path and the relative path itself is
    rendered, in every mode. *)
Lemma relative_path_counterexample :
  filepath_Abs demo_os "a.db" = inl (Wrap "getwd" (Sentinel ErrNotExist))
  /\ formatPath demo_os "a.db" = "a.db"
  /\ formatPlainMatch demo_os {| Path := "a.db"; Size := 31 |} false = "a.db"
  /\ formatJSONLine demo_os {| Path := "a.db"; Size := 31 |} false
     = "{" +:+ key "path" +:+ ": " +:+ key "a.db" +:+ "}"
  /\ formatJSONEntry demo_os {| Path := "a.db"; Size := 31 |} false
     = "    {" +:+ String nl ("      " +:+ key "path" +:+ ": " +:+ key "a.db"
         +:+ String nl "    }")
  /\ String.get 0 (formatPath demo_os "a.db") = Some "a"%char.
Proof. repeat split. Qed.

Lemma lines_app_nl (l rest : string) :
  no_newline l = true -> lines (l +:+ String nl rest) = l :: lines rest.
Proof.
  induction l as [|c l IH]; intros Hl.
  - rewrite append_nil. simpl. done.
  - simpl in Hl. apply andb_true_iff in Hl as [Hc Hl].
    apply negb_true_iff in Hc. rewrite append_cons. simpl. rewrite Hc.
    by rewrite (IH Hl).
Qed.

Lemma no_newline_path_line (p tail : string) :
  no_newline tail = true ->
  no_newline ("      " +:+ key "path" +:+ ": " +:+ marshalString p +:+ tail) = true.
Proof.
  intros Ht. destruct (marshalString_lex p "") as (_ & _ & Hm).
  rewrite !no_newline_app, Hm, Ht. done.
Qed.

Lemma no_newline_size_line (n : Z) :
  no_newline ("      " +:+ key "size" +:+ ": " +:+ Sprintf_d n) = true.
Proof.
  destruct (Sprintf_d_lex n "" eq_refl) as [_ Hn].
  rewrite !no_newline_app, Hn. done.
Qed.

(** The lines of an entry followed by its separator. *)
Lemma lines_entry (os : OS) (showSize : bool) (m : matchResult) (last : bool)
    (rest : string) :
  lines (formatJSONEntry os m showSize
         +:+ (if last then "" else ",") +:+ String nl rest)
  = entry_lines os showSize m last ++ lines rest.
Proof.
  unfold formatJSONEntry, entry_lines.
  generalize (formatPath os (Path m)) as p. intros p.
  set (closing := if last then "    }" else "    },").
  assert (no_newline closing = true) as Hclosing by (by destruct last).
  destruct showSize.
  - set (l2 := "      " +:+ key "path" +:+ ": " +:+ marshalString p +:+ ",").
    set (l3 := "      " +:+ key "size" +:+ ": " +:+ Sprintf_d (Size m)).
    match goal with
    | |- lines ?t = _ =>
        assert (t = "    {" +:+ String nl (l2 +:+ String nl (l3 +:+ String nl
                      (closing +:+ String nl rest)))) as ->
    end.
    { unfold l2, l3, closing. destruct last;
        repeat rewrite ?append_assoc', ?append_cons, ?append_nil; reflexivity. }
    rewrite (lines_app_nl "    {") by done.
    rewrite (lines_app_nl l2) by (by apply no_newline_path_line).
    rewrite (lines_app_nl l3) by apply no_newline_size_line.
    by rewrite (lines_app_nl closing).
  - set (l2 := "      " +:+ key "path" +:+ ": " +:+ marshalString p).
    match goal with
    | |- lines ?t = _ =>
        assert (t = "    {" +:+ String nl (l2 +:+ String nl
                      (closing +:+ String nl rest))) as ->
    end.
    { unfold l2, closing. destruct last;
        repeat rewrite ?append_assoc', ?append_cons, ?append_nil; reflexivity. }
    rewrite (lines_app_nl "    {") by done.
    rewrite (lines_app_nl l2).
    + by rewrite (lines_app_nl closing).
    + unfold l2. rewrite <- (append_nil_r (marshalString p)).
      by apply no_newline_path_line.
Qed.

Lemma lines_stream_entries (os : OS) (showSize : bool) (curr : matchResult)
    (rest : list matchResult) (tail : string) :
  lines (stream_entries os showSize curr rest +:+ tail)
  = entries_lines os showSize curr rest ++ lines tail.
Proof.
  revert curr. induction rest as [|next rest IH]; intros curr;
    cbn [stream_entries entries_lines].
  - unfold Println. rewrite append_assoc', append_cons, append_nil.
    apply (lines_entry os showSize curr true).
  - rewrite !append_assoc', append_cons, append_cons, append_nil.
    pose proof (lines_entry os showSize curr false
                  (stream_entries os showSize next rest +:+ tail)) as Hentry.
    cbv iota in Hentry. rewrite append_cons, append_nil in Hentry.
    rewrite Hentry, IH. by rewrite app_assoc.
Qed.

Lemma stream_entries_concat (os : OS) (showSize : bool) (curr : matchResult)
    (rest : list matchResult) :
  stream_entries os showSize curr rest
  = String.concat (String "," (String nl ""))
      ((fun m => formatJSONEntry os m showSize) <$> curr :: rest)
    +:+ String nl "".
Proof.
  revert curr. induction rest as [|next rest IH]; intros curr; [done|].
  simpl stream_entries. rewrite IH. simpl. by rewrite !append_assoc'.
Qed.

Lemma count_lines_app (x : string) (l1 l2 : list string) :
  count_lines x (l1 ++ l2) = count_lines x l1 + count_lines x l2.
Proof. unfold count_lines. by rewrite filter_app, length_app. Qed.

Lemma count_lines_cons (x y : string) (l : list string) :
  count_lines x (y :: l) = (if decide (y = x) then 1 else 0) + count_lines x l.
Proof. unfold count_lines. rewrite filter_cons. by destruct (decide (y = x)). Qed.

Lemma count_entry_lines (os : OS) (showSize : bool) (m : matchResult) (last : bool) :
  count_lines "    }," (entry_lines os showSize m last) = (if last then 0 else 1)
  /\ count_lines "," (entry_lines os showSize m last) = 0.
Proof.
  unfold entry_lines. destruct showSize, last; simpl;
    rewrite !count_lines_cons; split;
    repeat (rewrite decide_False by (unfold key; discriminate));
    rewrite ?decide_True by done; reflexivity.
Qed.

Lemma count_entries_lines (os : OS) (showSize : bool) (curr : matchResult)
    (rest : list matchResult) :
  count_lines "    }," (entries_lines os showSize curr rest) = length rest
  /\ count_lines "," (entries_lines os showSize curr rest) = 0.
Proof.
  revert curr. induction rest as [|next rest IH]; intros curr;
    cbn [entries_lines length].
  - apply (count_entry_lines os showSize curr true).
  - rewrite !count_lines_app. destruct (IH next) as [-> ->].
    by destruct (count_entry_lines os showSize curr false) as [-> ->].
Qed.

Lemma lines_streamMatches_json (os : OS) (ms : list matchResult) (showSize : bool) :
  lines (streamMatches os ms true false showSize)
  = ["{"; "  " +:+ key "entries" +:+ ": ["]
    ++ match ms with
       | first :: rest => entries_lines os showSize first rest
       | [] => []
       end
    ++ ["  ]"; "}"].
Proof.
  unfold streamMatches. cbv iota.
  set (body := match ms with
               | first :: rest => stream_entries os showSize first rest
               | [] => ""
               end).
  set (l2 := "  " +:+ key "entries" +:+ ": [").
  match goal with
  | |- lines ?t = _ =>
      assert (t = "{" +:+ String nl (l2 +:+ String nl
                    (body +:+ ("  ]" +:+ String nl ("}" +:+ String nl ""))))) as ->
  end.
  { unfold Println, l2.
    repeat rewrite ?append_assoc', ?append_cons, ?append_nil. reflexivity. }
  rewrite (lines_app_nl "{") by done.
  rewrite (lines_app_nl l2) by done.
  unfold body. destruct ms as [|first rest].
  - reflexivity.
  - rewrite lines_stream_entries. reflexivity.
Qed.

Lemma length_append' (a b : string) :
  String.length (a +:+ b) = String.length a + String.length b.
Proof. induction a as [|x a IH]; [done|]. rewrite append_cons. simpl. by rewrite IH. Qed.

(** The entries written by the loop of [streamMatches], followed by the
    closing bracket, are the items of an array. *)
Lemma parse_items_entries (os : OS) (showSize : bool) (curr : matchResult)
    (rest : list matchResult) (fuel : nat) (w tail : string) :
  all_ws w = true ->
  parse_items (5 + fuel + length rest)
    (stream_entries os showSize curr rest +:+ w +:+ String "]" tail)
  = Some ((fun m => match_object os m showSize) <$> curr :: rest, tail).
Proof.
  intros Hw. revert curr. induction rest as [|next rest IH]; intros curr;
    cbn [stream_entries length].
  - unfold Println. rewrite append_assoc', append_cons, append_nil.
    change (5 + fuel + 0) with (S (S (S (S (S (fuel + 0)))))).
    rewrite (parse_items_step _ _ _ _
               (formatJSONEntry_parse_value os curr showSize (fuel + 0) _)).
    change (String nl (w +:+ String "]" tail))
      with (String nl w +:+ String "]" tail).
    rewrite skip_ws_app by (by apply all_ws_nl_indent). simpl. done.
  - rewrite !append_assoc', append_cons, append_cons, append_nil.
    rewrite Nat.add_succ_r.
    change (S (5 + fuel + length rest))
      with (S (S (S (S (S (S (fuel + length rest))))))).
    rewrite (parse_items_step _ _ _ _
               (formatJSONEntry_parse_value os curr showSize (S (fuel + length rest)) _)).
    simpl skip_ws. simpl Ascii.eqb. cbv iota.
    change (String nl (stream_entries os showSize next rest +:+ w +:+ String "]" tail))
      with (String nl "" +:+ (stream_entries os showSize next rest +:+ w +:+ String "]" tail)).
    rewrite parse_items_ws by done.
    change (S (S (S (S (S (fuel + length rest))))))
      with (5 + fuel + length rest).
    rewrite IH. done.
Qed.

Lemma stream_entries_head (os : OS) (showSize : bool) (curr : matchResult)
    (rest : list matchResult) (tail : string) :
  exists r, skip_ws (String nl (stream_entries os showSize curr rest +:+ tail))
            = String "{" r.
Proof.
  destruct rest as [|next rest]; cbn [stream_entries]; unfold Println, formatJSONEntry;
    destruct showSize; repeat rewrite ?append_assoc', ?append_cons, ?append_nil;
    simpl; eauto.
Qed.

Lemma stream_entries_length (os : OS) (showSize : bool) (curr : matchResult)
    (rest : list matchResult) :
  length rest < String.length (stream_entries os showSize curr rest).
Proof.
  revert curr. induction rest as [|next rest IH]; intros curr;
    cbn [stream_entries length].
  - unfold Println. rewrite length_append'. simpl. lia.
  - rewrite !length_append'. specialize (IH next). simpl. lia.
Qed.

(** The whole pretty-JSON output is one JSON object whose field [entries]
    is the array of the rendered records. *)
Lemma streamMatches_json_value (os : OS) (ms : list matchResult) (showSize : bool)
    (x : nat) :
  parse_value (8 + x + length ms) (streamMatches os ms true false showSize)
  = Some (JObject [("entries",
                    JArray ((fun m => match_object os m showSize) <$> ms))],
          String nl "").
Proof.
  unfold streamMatches. cbv iota.
  set (body := match ms with
               | first :: rest => stream_entries os showSize first rest
               | [] => ""
               end).
  set (r2 := String " " (String "[" (String nl
               (body +:+ "  " +:+ String "]" (String nl (String "}" (String nl ""))))))).
  match goal with
  | |- parse_value _ ?t = _ =>
      assert (t = "" +:+ String "{" (String nl "  " +:+ String dq
                    ("entries" +:+ String dq ("" +:+ String ":" r2)))) as ->
  end.
  { unfold Println, r2, key.
    repeat rewrite ?append_assoc', ?append_cons, ?append_nil. reflexivity. }
  change (8 + x + length ms) with (S (S (S (5 + x + length ms)))).
  rewrite parse_value_object by done.
  assert (parse_value (S (5 + x + length ms)) r2
          = Some (JArray ((fun m => match_object os m showSize) <$> ms),
                  String nl (String "}" (String nl "")))) as Hr2.
  { unfold r2. change (String " " ?s) with (" " +:+ s).
    rewrite parse_value_ws by done.
    unfold body. destruct ms as [|first rest].
    - rewrite append_nil.
      change (String nl ("  " +:+ String "]" ?t)) with (String nl "  " +:+ String "]" t).
      by rewrite parse_value_array_empty.
    - destruct (stream_entries_head os showSize first rest
                  ("  " +:+ String "]" (String nl (String "}" (String nl "")))))
        as [r Hr].
      rewrite (parse_value_array _ _ _ _ Hr eq_refl).
      change (String nl ?s) with (String nl "" +:+ s).
      rewrite parse_items_ws by done.
      cbn [length]. rewrite Nat.add_succ_r.
      change (S (5 + x + length rest)) with (5 + S x + length rest).
      by rewrite parse_items_entries. }
  rewrite (parse_members_step (S (5 + x + length ms)) (String nl "  ") "entries" ""
             r2 _ _ eq_refl eq_refl (piece_plain "entries" eq_refl) Hr2).
  simpl. done.
Qed.

Lemma streamMatches_json_parse (os : OS) (ms : list matchResult) (showSize : bool) :
  parse_json (streamMatches os ms true false showSize)
  = Some (JObject [("entries",
                    JArray ((fun m => match_object os m showSize) <$> ms))]).
Proof.
  unfold parse_json.
  assert (exists x, S (String.length (streamMatches os ms true false showSize))
                    = 8 + x + length ms) as [x ->].
  { exists (String.length (streamMatches os ms true false showSize) - 7 - length ms).
    unfold streamMatches, Println, key. cbv iota. rewrite !length_append'.
    destruct ms as [|first rest]; simpl; [lia|].
    pose proof (stream_entries_length os showSize first rest). lia. }
  by rewrite streamMatches_json_value.
Qed.

(** C7.  In pretty-JSON mode the output is the header, the entries joined
    by a comma followed by a line feed, and the footer; every entry ends
    with its closing brace, so each of the [N-1] separating commas directly
    follows a closing brace.  Line by line: the lines are the two header
    lines, the lines of the entries, and the two footer lines; exactly
    [N-1] lines are a closing brace followed by a comma, and no line is a
    comma alone.  The output always parses as a JSON object whose field
    [entries] is the array of the [N] rendered records; for [N = 0] it is
    the object with the empty array. *)
Theorem pretty_json_commas (os : OS) (ms : list matchResult) (showSize : bool) :
  let out := streamMatches os ms true false showSize in
  out = Println "{" +:+ Println ("  " +:+ key "entries" +:+ ": [")
        +:+ match ms with
            | [] => ""
            | _ :: _ =>
                String.concat (String "," (String nl ""))
                  ((fun m => formatJSONEntry os m showSize) <$> ms)
                +:+ String nl ""
            end
        +:+ Println "  ]" +:+ Println "}"
  /\ (forall m, exists body,
        formatJSONEntry os m showSize = body +:+ String nl "    }")
  /\ lines out
     = ["{"; "  " +:+ key "entries" +:+ ": ["]
       ++ match ms with
          | first :: rest => entries_lines os showSize first rest
          | [] => []
          end
       ++ ["  ]"; "}"]
  /\ count_lines "    }," (lines out) = length ms - 1
  /\ count_lines "," (lines out) = 0
  /\ parse_json out
     = Some (JObject [("entries",
                       JArray ((fun m => match_object os m showSize) <$> ms))])
  /\ (ms = [] ->
      out = Println "{" +:+ Println ("  " +:+ key "entries" +:+ ": [")
            +:+ Println "  ]" +:+ Println "}"
      /\ parse_json out = Some (JObject [("entries", JArray [])])).
Proof.
  intros out. unfold out.
  pose proof (lines_streamMatches_json os ms showSize) as Hlines.
  pose proof (streamMatches_json_parse os ms showSize) as Hparse.
  split_and!.
  - unfold streamMatches. cbv iota. destruct ms as [|first rest]; [done|].
    by rewrite stream_entries_concat.
  - intros m. unfold formatJSONEntry. destruct showSize.
    + eexists. repeat rewrite <- ?append_assoc', <- ?append_cons. reflexivity.
    + eexists. repeat rewrite <- ?append_assoc', <- ?append_cons. reflexivity.
  - exact Hlines.
  - rewrite Hlines. rewrite !count_lines_app. destruct ms as [|first rest].
    + reflexivity.
    + destruct (count_entries_lines os showSize first rest) as [-> _].
      cbn [length]. unfold count_lines. simpl. lia.
  - rewrite Hlines. rewrite !count_lines_app. destruct ms as [|first rest].
    + reflexivity.
    + by destruct (count_entries_lines os showSize first rest) as [_ ->].
  - exact Hparse.
  - intros ->. split; [reflexivity|exact Hparse].
Qed.

(** The output of the test [TestJSONCommaPlacement], line by line. *)
Example pretty_json_two_matches :
  lines (streamMatches demo_os
           [ {| Path := "/a.db"; Size := 123 |}; {| Path := "/b.db"; Size := 456 |} ]
           true false true)
  = ["{"; "  " +:+ key "entries" +:+ ": [";
     "    {"; "      " +:+ key "path" +:+ ": " +:+ key "/a.db" +:+ ",";
     "      " +:+ key "size" +:+ ": 123"; "    },";
     "    {"; "      " +:+ key "path" +:+ ": " +:+ key "/b.db" +:+ ",";
     "      " +:+ key "size" +:+ ": 456"; "    }";
     "  ]"; "}"].
Proof. vm_compute. reflexivity. Qed.

(** * Further properties of the code *)

(** ** The header prober *)





(** X2.  The prober reads the header only: a file whose reads start to
    fail at an offset of 16 or more is probed exactly as the same file
    without the read fault. *)
Theorem checkSQLiteMagic_reads_header_only (os os' : OS) (path : string)
    (f : file) (k : nat) (e : error) :
  os_file os path = Some f ->
  f_read_fault f = Some (k, e) ->
  16 ≤ k ->
  os_file os' path
  = Some {| f_data := f_data f; f_open_err := f_open_err f;
            f_read_fault := None; f_stat_err := f_stat_err f |} ->
  checkSQLiteMagic os path = checkSQLiteMagic os' path.
Proof.
  intros Hf Hfault Hk Hf'. unfold checkSQLiteMagic, os_Open.
  rewrite Hf, Hf'. simpl. destruct (f_open_err f); [done|].
  set (g := {| f_data := f_data f; f_open_err := None;
               f_read_fault := None; f_stat_err := f_stat_err f |}).
  assert (io_ReadFull f 16 = io_ReadFull g 16) as ->; [|done].
  unfold io_ReadFull, readable. rewrite Hfault. simpl.
  rewrite length_take.
  destruct (decide (16 ≤ length (f_data f))) as [Hlen|Hlen].
  - rewrite decide_True by lia. rewrite take_take. do 2 f_equal. lia.
  - rewrite decide_False by lia. rewrite decide_False by lia.
    rewrite take_ge by lia.
    replace (k `min` length (f_data f)) with (length (f_data f)) by lia. done.
Qed.

Lemma checkSQLiteMagic_reads_header_only_witness :
  checkSQLiteMagic
    (with_file demo_os "/r/late.db"
       {| f_data := payload "0123456789"; f_open_err := None;
          f_read_fault := Some (20, Sentinel (Errno 5)); f_stat_err := None |})
    "/r/late.db"
  = checkSQLiteMagic (with_file demo_os "/r/late.db" (plain_file (payload "0123456789")))
      "/r/late.db".
Proof.
  eapply checkSQLiteMagic_reads_header_only; [reflexivity|reflexivity|lia|reflexivity].
Defined.

(** ** The scan pipeline *)



Lemma elem_of_probed (os : OS) (roots : list string) (workers : nat) (s : state)
    (p : string) :
  inv os roots workers s -> p ∈ st_probed s -> p ∈ walk_paths os roots.
Proof. intros [I1 _ _ _ _ _ _ _] Hp. rewrite I1. set_solver. Qed.





(** ** Directory traversal *)

Lemma error_ind' (P : error -> Prop) :
  (forall s, P (Sentinel s)) ->
  (forall prefix e, P e -> P (Wrap prefix e)) ->
  (forall es, Forall P es -> P (Joined es)) ->
  forall e, P e.
Proof.
  intros HS HW HJ. fix IH 1. intros [s|prefix e|es]; [apply HS|apply HW, IH|].
  apply HJ. induction es as [|e es IHes]; constructor; [apply IH|apply IHes].
Qed.

Lemma errors_Is_leaves (e : error) (target : sentinel) :
  errors_Is e target = existsb (fun l => errors_Is l target) (leaves e).
Proof.
  induction e as [s|prefix e IH|es IH] using error_ind'; simpl;
    [by rewrite orb_false_r..|].
  induction IH as [|e es He _ IHes]; [done|]. simpl.
  by rewrite existsb_app, <- He, IHes.
Qed.

Lemma walk_entries_spec (os : OS) (path : string) (entries : list (string * node)) :
  Forall (fun nd => forall path,
            (walkDir os walkFn path nd.2).1 `prefix_of` regular_files os path nd.2
            /\ (forall e, (walkDir os walkFn path nd.2).2 = Some e ->
                  errors_Is e ErrPermission = false)
            /\ ((walkDir os walkFn path nd.2).2 = None
                <-> only_permission_errors nd.2 = true)) entries ->
  (walk_dir os path entries).1
    `prefix_of` flat_map (fun nd => regular_files os (filepath_Join os path nd.1) nd.2)
                  entries
  /\ (forall e, (walk_dir os path entries).2 = Some e ->
        errors_Is e ErrPermission = false)
  /\ ((walk_dir os path entries).2 = None
      <-> forallb (fun nd => only_permission_errors nd.2) entries = true).
Proof.
  unfold walk_dir. induction 1 as [|[name d] entries Hd _ IH]; [done|].
  destruct (Hd (filepath_Join os path name)) as (Hpre & Hperm & Hnil).
  destruct IH as (IHpre & IHperm & IHnil).
  rewrite walk_entries_cons. cbn [fst snd flat_map forallb] in *.
  destruct ((walkDir os walkFn (filepath_Join os path name) d).2) as [e|] eqn:He.
  - rewrite He. split_and!.
    + by apply prefix_app_r.
    + intros e' ?. simplify_eq. by apply Hperm.
    + split; [done|]. intros [Hok _]%andb_true_iff. by apply Hnil in Hok.
  - pose proof (proj1 Hnil eq_refl) as Hok.
    pose proof (walkDir_only_permission_errors os d (filepath_Join os path name) Hok)
      as Hall.
    rewrite Hall in *. simpl. rewrite Hok. simpl. split_and!.
    + by apply prefix_app.
    + done.
    + done.
Qed.

Lemma walkDir_spec (os : OS) (d : node) (path : string) :
  (walkDir os walkFn path d).1 `prefix_of` regular_files os path d
  /\ (forall e, (walkDir os walkFn path d).2 = Some e ->
        errors_Is e ErrPermission = false)
  /\ ((walkDir os walkFn path d).2 = None <-> only_permission_errors d = true).
Proof.
  revert path. induction d as [| |rerr entries IH] using node_ind'; intros path;
    [done|done|].
  rewrite walkDir_dir. fold (walk_dir os path entries).
  pose proof (walk_entries_spec os path entries IH) as (Hpre & Hperm & Hnil).
  destruct rerr as [e|]; simpl; [|done].
  destruct (errors_Is e ErrPermission) eqn:He; [done|]. simpl. split_and!.
  - apply prefix_nil.
  - intros e' ?. by simplify_eq.
  - done.
Qed.

Lemma walk_root_error_not_permission (os : OS) (root : string) (e : error) :
  (walk_root os root).2 = Some e -> errors_Is e ErrPermission = false.
Proof.
  unfold walk_root, WalkDir. destruct (os_Lstat os root) as [e'|d].
  - rewrite walkFn_error. destruct (errors_Is e' ErrPermission) eqn:He; [done|].
    by intros [= <-].
  - destruct (walkDir_spec os d root) as (_ & Hperm & _). apply Hperm.
Qed.

(** X5.  The walk of a root sends nothing but regular files of the tree
    below the root: what it sends is an initial part of the list of these
    files in tree order, so that no file is skipped before the point where
    the walk stops.  The walk returns nil exactly when every directory read
    error in the tree is a permission error, and the error it returns is
    never a permission error. *)
Theorem walk_root_sends_regular_files (os : OS) (root : string) :
  (forall e, (walk_root os root).2 = Some e -> errors_Is e ErrPermission = false)
  /\ (forall d, os_Lstat os root = inr d ->
        (walk_root os root).1 `prefix_of` regular_files os root d
        /\ ((walk_root os root).2 = None <-> only_permission_errors d = true))
  /\ (forall p, p ∈ (walk_root os root).1 ->
        exists d, os_Lstat os root = inr d /\ p ∈ regular_files os root d).
Proof.
  split; [intros e; apply walk_root_error_not_permission|].
  unfold walk_root, WalkDir. destruct (os_Lstat os root) as [e|d].
  - rewrite walkFn_error. simpl. split; [done|]. by intros p ?%elem_of_nil.
  - destruct (walkDir_spec os d root) as ([rest Hpre] & _ & Hnil). split.
    + intros d' [= <-]. split; [by exists rest|done].
    + intros p Hp. exists d. split; [done|]. rewrite Hpre. set_solver.
Qed.

(** ** The scan pipeline: the walk error *)

Lemma run_preserves (P : state -> Prop) (os : OS) (workers : nat) (sink : errSink) :
  (forall a s s', P s -> step os workers sink a s = Some s' -> P s') ->
  forall acts s s', P s -> run os workers sink acts s = Some s' -> P s'.
Proof.
  intros Hstep acts. induction acts as [|a acts IH]; intros s s' HP Hrun; simpl in Hrun.
  - by simplify_eq.
  - destruct (step os workers sink a s) as [s1|] eqn:Hs; [|done]. eauto.
Qed.

Lemma init_inv_walk (os : OS) (roots : list string) (workers : nat) :
  inv_walk os roots (init os roots workers).
Proof.
  split; simpl.
  - by rewrite length_fmap.
  - intros i r pending ret Hr. rewrite list_lookup_fmap, Hr. simpl.
    destruct (walk_root os r) as [sent ret']. by intros [= _ ->].
  - split; [|done]. intros _ i r Hr. rewrite list_lookup_fmap, Hr. simpl.
    by destruct (walk_root os r).
Qed.

Lemma step_walkers (os : OS) (workers : nat) (sink : errSink) (a : action)
    (s s' : state) :
  step os workers sink a s = Some s' ->
  (st_walkers s' = st_walkers s /\ st_walkErr s' = st_walkErr s)
  \/ (exists i p rest ret,
        a = AWalk i /\ st_walkers s !! i = Some (Walking (p :: rest) ret)
        /\ st_walkers s' = <[i := Walking rest ret]> (st_walkers s)
        /\ st_walkErr s' = st_walkErr s
        /\ st_paths s' = st_paths s ++ [p]
        /\ length (st_paths s) < workers * 4
        /\ st_pathsClosed s' = st_pathsClosed s)
  \/ (exists i ret,
        a = AWalk i /\ st_walkers s !! i = Some (Walking [] ret)
        /\ st_walkers s' = <[i := WalkDone]> (st_walkers s)
        /\ st_walkErr s'
           = match ret with
             | Some e => errors_Join (st_walkErr s) (Some e)
             | None => st_walkErr s
             end).
Proof.
  destruct s as [wk we ps pc ws ms es ret out wn dr pr]. intros Hstep.
  destruct a as [i| |j| | |]; simpl in Hstep.
  - destruct (wk !! i) as [[[|p rest] r|]|] eqn:Hi; [| |done..].
    + simplify_eq. right; right. by exists i, r.
    + case_decide; [|done]. simplify_eq. right; left. by exists i, p, rest, r.
  - left. destruct (forallb walker_done wk && negb pc); by simplify_eq.
  - left. destruct (ws !! j) as [[| | |]|]; [| | |done..].
    + destruct ps; [destruct pc|]; by simplify_eq.
    + case_decide; by simplify_eq.
    + case_decide; by simplify_eq.
  - left. destruct ret; [done|]. destruct (forallb worker_done ws); by simplify_eq.
  - left. destruct ms; by simplify_eq.
  - left. destruct es; by simplify_eq.
Qed.

Lemma step_inv_walk (os : OS) (roots : list string) (workers : nat) (sink : errSink)
    (a : action) (s s' : state) :
  inv_walk os roots s ->
  step os workers sink a s = Some s' ->
  inv_walk os roots s'.
Proof.
  intros [L R E] Hstep.
  destruct (step_walkers _ _ _ _ _ _ Hstep)
    as [[Hw He]|[(i & p & rest & ret & _ & Hi & Hw & He & _)|(i & ret & _ & Hi & Hw & He)]].
  - split; rewrite ?Hw, ?He; done.
  - assert (Hlt : i < length (st_walkers s)) by by eapply lookup_lt_Some.
    split; rewrite ?Hw, ?He.
    + by rewrite length_insert.
    + intros j r pending ret' Hr. destruct (decide (j = i)) as [->|Hne].
      * rewrite list_lookup_insert_eq by done. intros [= _ <-]. eauto.
      * rewrite list_lookup_insert_ne by done. eauto.
    + rewrite E. split; intros H j r Hr Hj.
      * destruct (decide (j = i)) as [->|Hne].
        -- by rewrite list_lookup_insert_eq in Hj by done.
        -- rewrite list_lookup_insert_ne in Hj by done. eauto.
      * apply (H j r Hr). destruct (decide (j = i)) as [->|Hne]; [congruence|].
        by rewrite list_lookup_insert_ne by done.
  - assert (Hlt : i < length (st_walkers s)) by by eapply lookup_lt_Some.
    destruct (lookup_lt_is_Some_2 roots i) as [ri Hri]; [lia|].
    pose proof (R i ri [] ret Hri Hi) as Hret.
    split; rewrite ?Hw, ?He.
    + by rewrite length_insert.
    + intros j r pending ret' Hr. destruct (decide (j = i)) as [->|Hne].
      * by rewrite list_lookup_insert_eq by done.
      * rewrite list_lookup_insert_ne by done. eauto.
    + destruct ret as [e|].
      * split; [by destruct (st_walkErr s)|]. intros H.
        specialize (H i ri Hri). rewrite list_lookup_insert_eq in H by done.
        specialize (H eq_refl). congruence.
      * rewrite E. split; intros H j r Hr Hj.
        -- destruct (decide (j = i)) as [->|Hne]; [congruence|].
           rewrite list_lookup_insert_ne in Hj by done. eauto.
        -- apply (H j r Hr). destruct (decide (j = i)) as [->|Hne]; [congruence|].
           by rewrite list_lookup_insert_ne by done.
Qed.

Lemma run_inv_walk (os : OS) (roots : list string) (workers : nat) (sink : errSink)
    (acts : list action) (s : state) :
  run os workers sink acts (init os roots workers) = Some s ->
  inv_walk os roots s.
Proof.
  apply (run_preserves (inv_walk os roots)); [|apply init_inv_walk].
  intros a s1 s2. apply step_inv_walk.
Qed.

Lemma run_init_inv (os : OS) (roots : list string) (workers : nat) (sink : errSink)
    (acts : list action) (s : state) :
  run os workers sink acts (init os roots workers) = Some s ->
  inv os roots workers s.
Proof. apply run_inv, init_inv. Qed.

Lemma finished_walkers_done (os : OS) (roots : list string) (workers : nat)
    (s : state) (res : list matchResult * option error) :
  0 < workers ->
  inv os roots workers s ->
  finished s = Some res ->
  forallb walker_done (st_walkers s) = true /\ res.2 = st_walkErr s.
Proof.
  intros Hw [_ _ _ _ I5 I6 I7 I8]. unfold finished.
  destruct (st_ret s) as [e|] eqn:Hret; [|done].
  destruct (st_matches s); [|done]. destruct (st_errs s); [|done].
  intros [= <-]. simpl. destruct (I7 e eq_refl) as [Hdone He].
  split; [|by apply He]. apply I5, I6, forallb_existsb; [done|lia].
Qed.

Lemma finished_walk_error (os : OS) (roots : list string) (workers : nat)
    (sink : errSink) (acts : list action) (s : state)
    (res : list matchResult * option error) :
  0 < workers ->
  run os workers sink acts (init os roots workers) = Some s ->
  finished s = Some res ->
  (res.2 = None <-> forall r, r ∈ roots -> (walk_root os r).2 = None)
  /\ (forall e, res.2 = Some e -> errors_Is e ErrPermission = false).
Proof.
  intros Hw Hrun Hfin.
  pose proof (run_init_inv _ _ _ _ _ _ Hrun) as I.
  pose proof (run_inv_walk _ _ _ _ _ _ Hrun) as [L R E].
  destruct (finished_walkers_done _ _ _ _ _ Hw I Hfin) as [Hdone Hres].
  split.
  - rewrite Hres, E. split.
    + intros H r [i Hi]%list_elem_of_lookup.
      destruct (lookup_lt_is_Some_2 (st_walkers s) i) as [w Hwi].
      { rewrite L. by eapply lookup_lt_Some. }
      pose proof (forallb_lookup _ _ _ _ Hdone Hwi) as Hd.
      destruct w; [done|]. eauto.
    + intros H i r Hi _. apply H. by eapply list_elem_of_lookup_2.
  - intros e He. destruct res as [out walkErr]. simpl in He. subst walkErr.
    destruct (finished_inv os roots workers s out (Some e) Hw I Hfin)
      as (_ & _ & _ & Hleaves).
    rewrite errors_Is_leaves. apply not_true_is_false.
    intros (l & Hl & Hperm)%existsb_exists. apply list_elem_of_In in Hl.
    simpl in Hleaves. rewrite Hleaves in Hl. unfold walk_errors in Hl.
    apply list_elem_of_bind in Hl as (r & Hlr & _).
    destruct ((walk_root os r).2) as [e'|] eqn:He'; [|by apply elem_of_nil in Hlr].
    pose proof (walk_root_error_not_permission os r e' He') as Hno.
    rewrite errors_Is_leaves in Hno.
    assert (existsb (fun l => errors_Is l ErrPermission) (leaves e') = true); [|congruence].
    apply existsb_exists. exists l. split; [|done]. by apply list_elem_of_In.
Qed.

(** X6.  When a scan with at least one worker is over, the walk error it
    returns is nil exactly when the walk of every root returned nil, and a
    walk error that is returned is never a permission error. *)
Theorem scan_walk_error_nil_iff (os : OS) (roots : list string) (workers : nat)
    (sink : errSink) (acts : list action) (s : state)
    (res : list matchResult * option error) :
  0 < workers ->
  run os workers sink acts (init os roots workers) = Some s ->
  finished s = Some res ->
  (res.2 = None <-> forall r, r ∈ roots -> (walk_root os r).2 = None)
  /\ (forall e, res.2 = Some e -> errors_Is e ErrPermission = false).
Proof. apply finished_walk_error. Qed.

Lemma scan_walk_error_nil_iff_witness :
  exists s res,
    run demo_os 1 Discard
      (schedule demo_os 1 Discard 40 (init demo_os ["/t"] 1))
      (init demo_os ["/t"] 1) = Some s
    /\ finished s = Some res
    /\ (res.2 = None <-> forall r, r ∈ ["/t"] -> (walk_root demo_os r).2 = None)
    /\ (forall e, res.2 = Some e -> errors_Is e ErrPermission = false).
Proof.
  eexists _, _.
  match goal with
  | |- ?A /\ _ => assert A as Hrun by (vm_compute; reflexivity)
  end.
  split; [exact Hrun|].
  match goal with
  | |- ?A /\ _ => assert A as Hfin by (vm_compute; reflexivity)
  end.
  split; [exact Hfin|].
  exact (scan_walk_error_nil_iff demo_os ["/t"] 1 Discard _ _ _ ltac:(lia) Hrun Hfin).
Defined.

(** ** The scan pipeline: safety and termination *)

(** X7.  In every state a scan can reach, a traversal goroutine that has
    not ended finds [paths] open, and a worker that has not left its loop
    finds [matches] and [errs] open ([scanPaths] has not returned): no send
    ever hits a closed channel.  A worker only leaves its loop when [paths]
    is closed and empty. *)
Theorem no_send_on_closed_channel (os : OS) (roots : list string) (workers : nat)
    (sink : errSink) (acts : list action) (s : state) :
  run os workers sink acts (init os roots workers) = Some s ->
  (forall i w, st_walkers s !! i = Some w -> walker_done w = false ->
     st_pathsClosed s = false)
  /\ (forall j w, st_workers s !! j = Some w -> worker_done w = false ->
        st_ret s = None)
  /\ (forall j, st_workers s !! j = Some WDone ->
        st_pathsClosed s = true /\ st_paths s = []).
Proof.
  intros Hrun. destruct (run_init_inv _ _ _ _ _ _ Hrun) as [_ _ _ _ I5 I6 I7 _].
  split_and!.
  - intros i w Hi Hw. destruct (st_pathsClosed s); [|done].
    pose proof (forallb_lookup _ _ _ _ (I5 eq_refl) Hi). congruence.
  - intros j w Hj Hw. destruct (st_ret s) as [e|]; [|done].
    destruct (I7 e eq_refl) as [Hall _].
    pose proof (forallb_lookup _ _ _ _ Hall Hj). congruence.
  - intros j Hj. apply I6. apply existsb_exists. exists WDone. split; [|done].
    apply list_elem_of_In. by eapply list_elem_of_lookup_2.
Qed.

Lemma no_send_on_closed_channel_witness :
  exists s,
    run demo_os 2 Warn [AWalk 0; AWork 1; AWalk 0] (init demo_os ["/r"] 2) = Some s
    /\ (forall i w, st_walkers s !! i = Some w -> walker_done w = false ->
          st_pathsClosed s = false)
    /\ (forall j w, st_workers s !! j = Some w -> worker_done w = false ->
          st_ret s = None)
    /\ (forall j, st_workers s !! j = Some WDone ->
          st_pathsClosed s = true /\ st_paths s = []).
Proof.
  eexists.
  match goal with
  | |- ?A /\ _ => assert A as Hrun by (vm_compute; reflexivity)
  end.
  split; [exact Hrun|].
  exact (no_send_on_closed_channel demo_os ["/r"] 2 Warn _ _ Hrun).
Defined.

Lemma run_weight (os : OS) (workers : nat) (sink : errSink) (acts : list action)
    (s s' : state) :
  run os workers sink acts s = Some s' -> length acts + weight s' ≤ weight s.
Proof.
  revert s. induction acts as [|a acts IH]; intros s Hrun; simpl in Hrun.
  - simplify_eq. simpl. lia.
  - destruct (step os workers sink a s) as [s1|] eqn:Hs; [|done].
    pose proof (step_weight _ _ _ _ _ _ Hs). specialize (IH _ Hrun). simpl. lia.
Qed.

Lemma weight_init (os : OS) (roots : list string) (workers : nat) :
  weight (init os roots workers)
  = 2 + workers + length roots + 4 * length (walk_paths os roots).
Proof.
  unfold weight, init, walk_paths. simpl.
  assert (sum_list (worker_weight <$> replicate workers WRecv) = workers) as ->.
  { induction workers as [|n IH]; simpl; [done|]. by f_equal. }
  assert (sum_list (walker_weight
            <$> ((fun r => let '(sent, ret) := walk_root os r in Walking sent ret)
                   <$> roots))
          = length roots + 4 * length (roots ≫= (fun r => (walk_root os r).1))) as ->.
  { induction roots as [|r roots IH]; simpl; [done|].
    rewrite length_app. destruct (walk_root os r) as [sent ret]. simpl.
    unfold fmap, mbind in IH. lia. }
  lia.
Qed.

(** X8.  A scan cannot run forever: whatever the interleaving of the
    goroutines, the number of steps taken from the start is at most
    [2 + workers + length roots + 4 * n], where [n] is the number of paths
    the walks of the roots send. *)
Theorem scan_steps_bounded (os : OS) (roots : list string) (workers : nat)
    (sink : errSink) (acts : list action) (s : state) :
  run os workers sink acts (init os roots workers) = Some s ->
  length acts ≤ 2 + workers + length roots + 4 * length (walk_paths os roots).
Proof.
  intros Hrun%run_weight. rewrite weight_init in Hrun. lia.
Qed.

Lemma scan_steps_bounded_witness :
  exists s,
    run demo_os 2 Warn [AWalk 0; AWork 1; AWalk 0] (init demo_os ["/r"] 2) = Some s
    /\ length [AWalk 0; AWork 1; AWalk 0]
       ≤ 2 + 2 + length ["/r"] + 4 * length (walk_paths demo_os ["/r"]).
Proof.
  eexists.
  match goal with
  | |- ?A /\ _ => assert A as Hrun by (vm_compute; reflexivity)
  end.
  split; [exact Hrun|].
  exact (scan_steps_bounded demo_os ["/r"] 2 Warn _ _ Hrun).
Defined.

Lemma run_app (os : OS) (workers : nat) (sink : errSink) (acts acts' : list action)
    (s s' : state) :
  run os workers sink acts s = Some s' ->
  run os workers sink (acts ++ acts') s = run os workers sink acts' s'.
Proof.
  revert s. induction acts as [|a acts IH]; intros s Hrun; simpl in *.
  - by simplify_eq.
  - destruct (step os workers sink a s) as [s1|]; [|done]. eauto.
Qed.

(** X9.  With at least one worker a scan cannot get stuck: from every
    state it can reach, whatever the interleaving so far, while the scan is
    not over some goroutine can take a step, and the run can be continued
    to the end, where [scanPaths] has returned and both result channels are
    empty. *)
Theorem scan_deadlock_free (os : OS) (roots : list string) (workers : nat)
    (sink : errSink) (acts : list action) (s : state) :
  0 < workers ->
  run os workers sink acts (init os roots workers) = Some s ->
  (finished s = None -> exists a s', step os workers sink a s = Some s')
  /\ exists more s' res,
       run os workers sink (acts ++ more) (init os roots workers) = Some s'
       /\ finished s' = Some res.
Proof.
  intros Hw Hrun. pose proof (run_init_inv _ _ _ _ _ _ Hrun) as I. split.
  - intros Hfin. destruct (sched_step os roots workers sink s Hw I Hfin)
      as (a & s' & _ & Hstep). eauto.
  - destruct (schedule_finishes os roots workers sink (weight s) s Hw I (le_n _))
      as (s' & Hrun' & [res Hres]).
    exists (schedule os workers sink (weight s) s), s', res.
    by rewrite (run_app _ _ _ _ _ _ _ Hrun).
Qed.

Lemma scan_deadlock_free_witness :
  exists s,
    run demo_os 2 Warn [AWalk 0; AWork 1; AWalk 0] (init demo_os ["/r"] 2) = Some s
    /\ (finished s = None -> exists a s', step demo_os 2 Warn a s = Some s')
    /\ exists more s' res,
         run demo_os 2 Warn ([AWalk 0; AWork 1; AWalk 0] ++ more)
           (init demo_os ["/r"] 2) = Some s'
         /\ finished s' = Some res.
Proof.
  eexists.
  match goal with
  | |- ?A /\ _ => assert A as Hrun by (vm_compute; reflexivity)
  end.
  split; [exact Hrun|].
  exact (scan_deadlock_free demo_os ["/r"] 2 Warn _ _ ltac:(lia) Hrun).
Defined.

(** ** The scan pipeline: no workers, one worker *)

Lemma step_inv_idle (os : OS) (sink : errSink) (a : action) (s s' : state) :
  inv_idle s -> step os 0 sink a s = Some s' -> inv_idle s'.
Proof.
  destruct s as [wk we ps pc ws ms es ret out wn dr pr].
  intros [I1 I2 I3 I4 I5 I6 I7 I8]; simpl in *; subst.
  destruct a as [i| |j| | |]; simpl; intros Hstep.
  - destruct (wk !! i) as [[[|p rest] r|]|]; [|done..]. by simplify_eq.
  - destruct (forallb walker_done wk && negb pc); by simplify_eq.
  - done.
  - destruct ret; by simplify_eq.
  - done.
  - done.
Qed.

(** X10.  [findSQLiteFiles] does not check [workers].  With zero workers
    [scanPaths] can return at once, and the result then is no record and a
    nil error whatever the roots hold; in no state such a scan can reach
    has a path been probed or a record or warning been produced; every
    traversal goroutine that has a path to send is blocked for good, and
    [paths] is never closed when the walks have a path to send. *)
Theorem findSQLiteFiles_zero_workers (os : OS) (roots : list string) (sink : errSink) :
  (exists s, run os 0 sink [AReturn] (init os roots 0) = Some s
             /\ finished s = Some ([], None))
  /\ forall acts s,
       run os 0 sink acts (init os roots 0) = Some s ->
       st_probed s = [] /\ st_matches s = [] /\ st_out s = []
       /\ st_errs s = [] /\ st_warned s = []
       /\ (forall res, finished s = Some res -> res.1 = [])
       /\ (forall i p rest ret,
             st_walkers s !! i = Some (Walking (p :: rest) ret) ->
             step os 0 sink (AWalk i) s = None)
       /\ (walk_paths os roots <> [] -> st_pathsClosed s = false).
Proof.
  split; [by eexists|]. intros acts s Hrun.
  assert (inv_idle s) as [I1 I2 I3 I4 I5 I6 I7 I8].
  { revert Hrun. apply (run_preserves inv_idle); [|done].
    intros a s1 s2. apply step_inv_idle. }
  pose proof (run_init_inv _ _ _ _ _ _ Hrun) as [J1 _ _ _ J5 _ _ _].
  split_and!; try done.
  - unfold finished. intros res. rewrite I3, I4. destruct (st_ret s); [|done].
    intros [= <-]. done.
  - intros i p rest ret Hi. destruct s. simpl in *. by rewrite Hi.
  - intros Hne. destruct (st_pathsClosed s); [|done]. destruct Hne.
    apply Permutation_nil_r. rewrite J1, I2, I8, !app_nil_r.
    by rewrite (bind_nil_forallb walker_done walker_pending _
                  ltac:(by intros []) (J5 eq_refl)).
Qed.

Lemma step_inv_order (os : OS) (root : string) (workers : nat) (sink : errSink)
    (a : action) (s s' : state) :
  inv_order os root sink s -> step os workers sink a s = Some s' ->
  inv_order os root sink s'.
Proof.
  destruct s as [wks we ps pc ws ms es ret out wn dr pr].
  intros [(wk & Hwks & Hwk & Hwe) (w & Hws & Hw & He)]; simpl in *. subst wks ws.
  destruct a as [i| |j| | |]; simpl; intros Hstep.
  - destruct i as [|i]; [|done]. simpl in Hstep.
    destruct wk as [[|p rest] r|]; [| |done].
    + destruct Hwe as [-> ->]. simplify_eq. split; simpl; [|by eauto].
      eexists. split; [done|]. split; [done|]. by destruct (walk_root os root).2.
    + case_decide; [|done]. simplify_eq. split; simpl; [|by eauto].
      eexists. split; [done|]. simpl in *. split; [|done].
      by rewrite Hwk, <- !app_assoc.
  - case_match; [|done]. simplify_eq. split; simpl; eauto.
  - destruct j as [|j]; [|done]. simpl in Hstep.
    destruct w as [|e|m|]; [| | |done].
    + destruct ps as [|p rest].
      * destruct pc; [|done]. simplify_eq. split; simpl; eauto.
      * simplify_eq. split; simpl.
        -- eexists. split; [done|]. split; [|done]. by rewrite Hwk, <- !app_assoc.
        -- eexists. split; [done|]. rewrite probe_matches_snoc, probe_errs_snoc, Hw, He.
           simpl. by rewrite !app_nil_r, <- !app_assoc.
    + case_decide; [|done]. simplify_eq. split; simpl; [by eauto|].
      eexists. split; [done|]. simpl in *. by rewrite Hw, He, !app_nil_r.
    + case_decide; [|done]. simplify_eq. split; simpl; [by eauto|].
      eexists. split; [done|]. simpl in *. by rewrite Hw, He, !app_nil_r.
  - destruct ret; [done|]. case_match; [|done]. simplify_eq. split; simpl; eauto.
  - destruct ms as [|m rest]; [done|]. simplify_eq. split; simpl; [by eauto|].
    eexists. split; [done|]. simpl in *. split; [|done]. by rewrite Hw, <- !app_assoc.
  - destruct es as [|e rest]; [done|]. simplify_eq. split; simpl; [by eauto|].
    eexists. split; [done|]. simpl in *. split; [done|].
    rewrite He. destruct sink; simpl; by rewrite <- !app_assoc.
Qed.

Lemma init_inv_order (os : OS) (root : string) (sink : errSink) :
  inv_order os root sink (init os [root] 1).
Proof.
  split; simpl.
  - eexists. split; [done|]. by destruct (walk_root os root).
  - eexists. split; [done|]. by destruct sink.
Qed.

Lemma run_inv_order (os : OS) (root : string) (sink : errSink)
    (acts : list action) (s : state) :
  run os 1 sink acts (init os [root] 1) = Some s -> inv_order os root sink s.
Proof.
  apply (run_preserves (inv_order os root sink)); [|apply init_inv_order].
  intros a s1 s2. apply step_inv_order.
Qed.

Lemma finished_inv_order (os : OS) (root : string) (sink : errSink)
    (acts : list action) (s : state) (res : list matchResult * option error) :
  run os 1 sink acts (init os [root] 1) = Some s ->
  finished s = Some res ->
  res = (probe_matches os (walk_root os root).1,
         errors_Join None (walk_root os root).2)
  /\ received sink s = probe_errs os (walk_root os root).1.
Proof.
  intros Hrun.
  destruct (run_inv_order _ _ _ _ _ Hrun)
    as [(wk & Hwks & Hwk & Hwe) (w & Hws & Hw & He)].
  pose proof (run_init_inv _ _ _ _ _ _ Hrun) as [_ _ _ _ J5 J6 J7 _].
  unfold finished.
  destruct (st_ret s) as [e|] eqn:Hret; [|done].
  destruct (st_matches s) eqn:Hms; [|done]. destruct (st_errs s) eqn:Hes; [|done].
  intros [= <-]. destruct (J7 e eq_refl) as [Hdone Hwalk].
  rewrite Hws in Hdone, J6. simpl in Hdone, J6. destruct w; try done.
  destruct J6 as [Hclosed Hps]; [done|]. specialize (J5 Hclosed).
  rewrite Hwks in J5. simpl in J5. destruct wk; [done|].
  simpl in *. rewrite Hps in Hwk. rewrite !app_nil_r in *.
  rewrite Hwk, Hw, He, (Hwalk ltac:(lia)), Hwe. done.
Qed.

(** X11.  With one root and one worker the result is fixed, order
    included: in every state the scan can reach, the records received so
    far from [matches] are a prefix of the records of the paths of the
    walk, in walk order, and when the scan is over [findSQLiteFiles]
    returns exactly these records, in this order, together with
    [errors.Join] of the error of the walk, whatever the interleaving. *)
Theorem single_worker_walk_order (os : OS) (root : string) (sink : errSink)
    (acts : list action) (s : state) :
  run os 1 sink acts (init os [root] 1) = Some s ->
  st_out s `prefix_of` probe_matches os (walk_root os root).1
  /\ (forall res, finished s = Some res ->
        res = (probe_matches os (walk_root os root).1,
               errors_Join None (walk_root os root).2)).
Proof.
  intros Hrun. split.
  - destruct (run_inv_order _ _ _ _ _ Hrun) as [(wk & _ & Hwk & _) (w & _ & Hw & _)].
    rewrite Hwk. unfold probe_matches in *. rewrite bind_app, Hw.
    rewrite <- app_assoc. by apply prefix_app_r.
  - intros res Hfin. by destruct (finished_inv_order _ _ _ _ _ _ Hrun Hfin).
Qed.

Lemma single_worker_walk_order_witness :
  exists s,
    run demo_os 1 Discard [AWalk 0; AWork 0; AWalk 0; AWork 0; AWalk 0; AWork 0;
                            AWork 0; AWork 0; ACollect]
      (init demo_os ["/r"] 1) = Some s
    /\ st_out s `prefix_of` probe_matches demo_os (walk_root demo_os "/r").1
    /\ (forall res, finished s = Some res ->
          res = (probe_matches demo_os (walk_root demo_os "/r").1,
                 errors_Join None (walk_root demo_os "/r").2)).
Proof.
  eexists.
  match goal with
  | |- ?A /\ _ => assert A as Hrun by (vm_compute; reflexivity)
  end.
  split; [exact Hrun|].
  exact (single_worker_walk_order demo_os "/r" Discard _ _ Hrun).
Defined.

(** ** Rendering: the line modes and the string encoder *)

Lemma Println_app (l rest : string) : Println l +:+ rest = l +:+ String nl rest.
Proof. unfold Println. by rewrite append_assoc', append_cons, append_nil. Qed.

Lemma lines_stream_lines (f : matchResult -> string) (ms : list matchResult) :
  Forall (fun m => no_newline (f m) = true) ms ->
  lines (stream_lines f ms) = f <$> ms.
Proof.
  induction 1 as [|m ms Hm _ IH]; [done|].
  cbn [stream_lines]. rewrite Println_app, (lines_app_nl _ _ Hm), IH. done.
Qed.

Lemma no_newline_formatJSONLine (os : OS) (m : matchResult) (showSize : bool) :
  no_newline (formatJSONLine os m showSize) = true.
Proof.
  destruct (marshalString_lex (formatPath os (Path m)) "") as (_ & _ & Hm).
  destruct (Sprintf_d_lex (Size m) "" eq_refl) as [_ Hn].
  unfold formatJSONLine. destruct showSize; rewrite !no_newline_app, Hm, ?Hn; done.
Qed.

(** X12.  With [--jsonl] the flag [--json] is not looked at, and the
    output is one line per record, in the order received: the lines of the
    output are the texts of [formatJSONLine], none of which holds a line
    feed whatever the path, and each line parses as the JSON object of its
    record. *)
Theorem jsonl_one_object_per_line (os : OS) (ms : list matchResult)
    (jsonOutput showSize : bool) :
  streamMatches os ms jsonOutput true showSize = streamMatches os ms false true showSize
  /\ lines (streamMatches os ms jsonOutput true showSize)
     = (fun m => formatJSONLine os m showSize) <$> ms
  /\ length (lines (streamMatches os ms jsonOutput true showSize)) = length ms
  /\ parse_json <$> lines (streamMatches os ms jsonOutput true showSize)
     = (fun m => Some (match_object os m showSize)) <$> ms.
Proof.
  assert (lines (streamMatches os ms jsonOutput true showSize)
          = (fun m => formatJSONLine os m showSize) <$> ms) as Hlines.
  { unfold streamMatches. apply lines_stream_lines, Forall_forall.
    intros m _. apply no_newline_formatJSONLine. }
  split_and!; [done|done|by rewrite Hlines, length_fmap|].
  rewrite Hlines, <- list_fmap_compose. apply list_fmap_ext.
  intros i m _. apply formatJSONLine_parse.
Qed.

Lemma no_newline_formatPlainMatch (os : OS) (m : matchResult) (showSize : bool) :
  no_newline (formatPlainMatch os m showSize)
  = no_newline (formatPath os (Path m)).
Proof.
  destruct (Sprintf_d_lex (Size m) "" eq_refl) as [_ Hn].
  unfold formatPlainMatch. destruct showSize; simpl; [|done].
  rewrite !no_newline_app, Hn. simpl. by rewrite !andb_true_r.
Qed.

(** X13.  In plain mode the rendered path is written as it is, without
    quoting: the output is one line per record, in the order received, as
    long as no rendered path holds a line feed; a record whose rendered
    path holds one takes more than one line. *)
Theorem plain_one_line_per_record (os : OS) (ms : list matchResult) (showSize : bool) :
  (Forall (fun m => no_newline (formatPath os (Path m)) = true) ms ->
   lines (streamMatches os ms false false showSize)
   = (fun m => formatPlainMatch os m showSize) <$> ms)
  /\ (forall m, no_newline (formatPath os (Path m)) = false ->
        1 < length (lines (streamMatches os [m] false false showSize))).
Proof.
  split.
  - intros Hms. unfold streamMatches. apply lines_stream_lines.
    eapply Forall_impl; [exact Hms|]. intros m Hm.
    by rewrite no_newline_formatPlainMatch.
  - intros m Hm. unfold streamMatches. cbn [stream_lines].
    rewrite append_nil_r. unfold Println.
    rewrite <- (no_newline_formatPlainMatch os m showSize) in Hm.
    induction (formatPlainMatch os m showSize) as [|c l IH]; [done|].
    rewrite append_cons. simpl in *. destruct (Ascii.eqb c nl) eqn:Hc.
    + simpl. clear. destruct l as [|c' l]; simpl; [lia|].
      destruct (Ascii.eqb c' nl); simpl; [lia|].
      destruct (lines (l +:+ String nl "")) eqn:Hl; simpl; [|lia].
      exfalso. clear -Hl. induction l as [|x l IH]; simpl in Hl; [done|].
      destruct (Ascii.eqb x nl); [done|]. by destruct (lines (l +:+ String nl "")).
    + simpl in Hm. specialize (IH Hm).
      destruct (lines (l +:+ String nl "")) as [|l1 ls]; simpl in *; lia.
Qed.









(** ** The command *)







(** X17.  With [--workers 1] and a single resolved root everything the
    command writes is fixed by the file system and the flags: standard
    output is [streamMatches] of the records of the paths of the walk in
    walk order, standard error holds the warnings of the probe errors in
    walk order, followed by the walk-error line for [errors.Join] of the
    error of the walk when it failed, and the exit status is 0, whatever
    the interleaving of the goroutines. *)
Theorem main_single_worker_deterministic (os : OS) (fl : flags) (root : string)
    (acts : list action) (o : outcome) :
  fl_version fl = false -> fl_workers fl = 1%Z -> main_roots os fl = [root] ->
  main os fl acts = Some o ->
  o = {| o_stdout :=
           streamMatches os (probe_matches os (walk_root os root).1)
             (fl_json fl) (fl_jsonl fl) (fl_size fl);
         o_stderr :=
           (DWarning <$> probe_errs os (walk_root os root).1)
           ++ match (walk_root os root).2 with
              | Some e => [DWalkError (Joined [e])]
              | None => []
              end;
         o_exit := 0 |}.
Proof.
  intros Hv Hw Hroots. unfold main. rewrite Hv, Hw, Hroots. simpl.
  change (Z.to_nat 1) with 1.
  destruct (run os 1 Warn acts _) as [s|] eqn:Hrun; [|done].
  destruct (finished s) as [[out walkErr]|] eqn:Hfin; [|done].
  intros [= <-].
  destruct (finished_inv_order _ _ _ _ _ _ Hrun Hfin) as [[= -> ->] Hrec].
  simpl in Hrec. rewrite Hrec. by destruct (walk_root os root).2.
Qed.

Lemma main_single_worker_deterministic_witness :
  exists o,
    main demo_os {| fl_path := "/t"; fl_workers := 1; fl_json := false;
                    fl_size := true; fl_jsonl := true; fl_version := false;
                    fl_args := [] |}
      (schedule demo_os 1 Warn 40 (init demo_os ["/t"] 1)) = Some o
    /\ o = {| o_stdout :=
                streamMatches demo_os (probe_matches demo_os (walk_root demo_os "/t").1)
                  false true true;
              o_stderr :=
                (DWarning <$> probe_errs demo_os (walk_root demo_os "/t").1)
                ++ match (walk_root demo_os "/t").2 with
                   | Some e => [DWalkError (Joined [e])]
                   | None => []
                   end;
              o_exit := 0 |}.
Proof.
  eexists.
  match goal with
  | |- ?A /\ _ => assert A as Hmain by (vm_compute; reflexivity)
  end.
  split; [exact Hmain|].
  exact (main_single_worker_deterministic demo_os
           {| fl_path := "/t"; fl_workers := 1; fl_json := false;
              fl_size := true; fl_jsonl := true; fl_version := false;
              fl_args := [] |} "/t" _ _ eq_refl eq_refl eq_refl Hmain).
Defined.

(** X18.  With [--json] and without [--jsonl], every run of the command
    that ends after a scan writes one JSON document to standard output,
    whatever the scan met: an object whose field [entries] is an array
    with one object for each MatchRecord of the paths sent by the walks of
    the resolved roots. *)
Theorem main_json_document (os : OS) (fl : flags) (acts : list action) (o : outcome) :
  fl_version fl = false -> (0 < fl_workers fl)%Z ->
  fl_json fl = true -> fl_jsonl fl = false ->
  main os fl acts = Some o ->
  exists ms,
    ms ≡ₚ probe_matches os (walk_paths os (main_roots os fl))
    /\ parse_json (o_stdout o)
       = Some (JObject [("entries",
                         JArray ((fun m => match_object os m (fl_size fl)) <$> ms))]).
Proof.
  intros Hv Hw Hj Hl. assert (0 < Z.to_nat (fl_workers fl)) as Hpos by lia.
  apply Z.leb_gt in Hw. unfold main. rewrite Hv, Hw, Hj, Hl.
  destruct (run os _ Warn acts _) as [s|] eqn:Hrun; [|done].
  destruct (finished s) as [[out walkErr]|] eqn:Hfin; [|done].
  intros [= <-]. simpl. exists out.
  pose proof (run_init_inv _ _ _ _ _ _ Hrun) as I.
  destruct (finished_inv _ _ _ _ _ _ Hpos I Hfin) as (Hp & Hm & _ & _).
  split; [|apply streamMatches_json_parse].
  rewrite Hm. unfold probe_matches. by rewrite Hp.
Qed.

Lemma main_json_document_witness :
  exists o ms,
    main demo_os demo_flags
      (schedule demo_os 2 Warn 60 (init demo_os ["/r"; "/t"] 2)) = Some o
    /\ ms ≡ₚ probe_matches demo_os (walk_paths demo_os (main_roots demo_os demo_flags))
    /\ parse_json (o_stdout o)
       = Some (JObject [("entries",
                         JArray ((fun m => match_object demo_os m true) <$> ms))]).
Proof.
  assert (exists o, main demo_os demo_flags
            (schedule demo_os 2 Warn 60 (init demo_os ["/r"; "/t"] 2)) = Some o)
    as [o Hmain] by (eexists; vm_compute; reflexivity).
  destruct (main_json_document demo_os demo_flags _ o eq_refl ltac:(simpl; lia)
              eq_refl eq_refl Hmain) as (ms & Hms & Hparse).
  exists o, ms. split_and!; [exact Hmain|exact Hms|exact Hparse].
Defined.

(** ** The scan pipeline: the errors reported *)

Lemma worker_probe_err (os : OS) (p : string) (e : error) :
  e ∈ worker_err (worker_probe os p) ->
  exists e', e = Wrap p e'
             /\ checkSQLiteMagic os p = (matchResult_zero, false, Some e')
             /\ errors_Is e' ErrPermission = false.
Proof.
  unfold worker_probe.
  assert (forall e', (checkSQLiteMagic os p).2 = Some e' ->
            checkSQLiteMagic os p = (matchResult_zero, false, Some e')) as Hzero.
  { unfold checkSQLiteMagic. intros e'. repeat case_match; simpl; congruence. }
  destruct (checkSQLiteMagic os p) as [[res ok] [e'|]] eqn:Hc.
  - destruct (errors_Is e' ErrPermission) eqn:Hperm; simpl.
    + by intros ?%elem_of_nil.
    + intros ->%list_elem_of_singleton. exists e'. by rewrite <- (Hzero e' eq_refl).
  - destruct ok; simpl; by intros ?%elem_of_nil.
Qed.

(** X19.  Every error that is in the [errs] channel or has been received
    from it, in any state a scan can reach, is the error
    [checkSQLiteMagic] returned for a path sent by the walk of a root,
    wrapped with that path; the check reported no match for it, and the
    error is not a permission error. *)
Theorem reported_errors_sound (os : OS) (roots : list string) (workers : nat)
    (sink : errSink) (acts : list action) (s : state) (e : error) :
  run os workers sink acts (init os roots workers) = Some s ->
  e ∈ st_errs s ++ st_warned s ++ st_dropped s ->
  exists p e',
    e = Wrap p e'
    /\ p ∈ walk_paths os roots
    /\ checkSQLiteMagic os p = (matchResult_zero, false, Some e')
    /\ errors_Is e ErrPermission = false.
Proof.
  intros Hrun He. pose proof (run_init_inv _ _ _ _ _ _ Hrun) as I.
  assert (e ∈ probe_errs os (st_probed s)) as Hin.
  { rewrite (inv_errs _ _ _ _ I). set_solver. }
  unfold probe_errs in Hin. apply list_elem_of_bind in Hin as (p & Hp & Hprobed).
  destruct (worker_probe_err os p e Hp) as (e' & -> & Hc & Hperm).
  exists p, e'. split_and!; try done. by eapply elem_of_probed.
Qed.

Lemma reported_errors_sound_witness :
  exists s,
    run demo_os 2 Warn
      (schedule demo_os 2 Warn 40 (init demo_os ["/r"] 2))
      (init demo_os ["/r"] 2) = Some s
    /\ exists p e',
         Wrap "/r/broken.db" (Sentinel (Errno 5)) = Wrap p e'
         /\ p ∈ walk_paths demo_os ["/r"]
         /\ checkSQLiteMagic demo_os p = (matchResult_zero, false, Some e')
         /\ errors_Is (Wrap "/r/broken.db" (Sentinel (Errno 5))) ErrPermission = false.
Proof.
  eexists.
  match goal with
  | |- ?A /\ _ => assert A as Hrun by (vm_compute; reflexivity)
  end.
  split; [exact Hrun|].
  refine (reported_errors_sound demo_os ["/r"] 2 Warn _ _
            (Wrap "/r/broken.db" (Sentinel (Errno 5))) Hrun _).
  vm_compute. set_solver.
Defined.
